(** * Workbench contributions registry (vs/workbench/common/contributions.ts)

    A shallow embedding of [WorkbenchContributionsRegistry] together with the
    collaborators it talks to (lifecycle service, instantiation service, log
    service, performance marks, idle scheduler), and the properties of its
    phased instantiation.

    The registry is single threaded.  The state of the registry and of its
    collaborators is one record, [World], threaded through every operation.
    Everything that the source leaves to the JavaScript event loop (the
    continuation of [lifecycleService.when], the continuation of the [await]
    on the Restored-completion promise, the idle callbacks) is kept in the
    world as a list of scheduled tasks, and an explicit action says which of
    them runs next; any enabled task may run, so every order the event loop
    can choose is covered.

    What a constructor does is not the registry's business: whether a call of
    [createInstance] throws and how long it takes are given by the services.
    Constructors are taken not to call back into the registry while they
    run.  Times returned by [idle.timeRemaining()] are rationals. *)

From stdpp Require Import gmap strings list fin_maps.
From Stdlib Require Import ZArith QArith.

Local Open Scope Z_scope.

(* ===================================================================== *)
(** ** Data model *)
(* ===================================================================== *)

(** Modelled from the spec: the enum [LifecyclePhase] is imported from
    vs/workbench/services/lifecycle/common/lifecycle, which is not among the
    sources.  The spec gives it as the ordered enum
    {Starting, Ready, Restored, Eventually}, strictly increasing; the
    numbering below is the one of that order. *)
Module LifecyclePhase.
Inductive t := Starting | Ready | Restored | Eventually.

Definition num (p : t) : Z :=
  match p with
  | Starting => 1
  | Ready => 2
  | Restored => 3
  | Eventually => 4
  end.

#[global] Instance eq_dec : EqDecision t.
Proof. solve_decision. Defined.

Definition to_nat (p : t) : nat :=
  match p with Starting => 0 | Ready => 1 | Restored => 2 | Eventually => 3 end%nat.

Definition of_nat (n : nat) : t :=
  match n with
  | 0 => Starting | 1 => Ready | 2 => Restored | _ => Eventually
  end%nat.

#[global] Instance countable : Countable t.
Proof. apply (inj_countable' to_nat of_nat). by intros []. Defined.
End LifecyclePhase.

(** [const enum WorkbenchContributionInstantiation]: the four phase-mapped
    kinds carry the number of their phase, [Lazy] is [Eventually + 1]. *)
Module WorkbenchContributionInstantiation.
Inductive t := BlockStartup | BlockRestore | AfterRestored | Eventually | Lazy.

Definition num (i : t) : Z :=
  match i with
  | BlockStartup => LifecyclePhase.num LifecyclePhase.Starting
  | BlockRestore => LifecyclePhase.num LifecyclePhase.Ready
  | AfterRestored => LifecyclePhase.num LifecyclePhase.Restored
  | Eventually => LifecyclePhase.num LifecyclePhase.Eventually
  | Lazy => LifecyclePhase.num LifecyclePhase.Eventually + 1
  end.

#[global] Instance eq_dec : EqDecision t.
Proof. solve_decision. Defined.
End WorkbenchContributionInstantiation.

Module LP := LifecyclePhase.
Module WCI := WorkbenchContributionInstantiation.

Definition toInstantiation (phase : LP.t) : WCI.t :=
  match phase with
  | LP.Starting => WCI.BlockStartup
  | LP.Ready => WCI.BlockRestore
  | LP.Restored => WCI.AfterRestored
  | LP.Eventually => WCI.Eventually
  end.

(** The parameter type of [toPhase] excludes [Lazy]; at run time the switch
    has no case for it and the function returns [undefined], here [None]. *)
Definition toPhase (instantiation : WCI.t) : option LP.t :=
  match instantiation with
  | WCI.BlockStartup => Some LP.Starting
  | WCI.BlockRestore => Some LP.Ready
  | WCI.AfterRestored => Some LP.Restored
  | WCI.Eventually => Some LP.Eventually
  | WCI.Lazy => None
  end.

(** A constructor ([IConstructorSignature]) is opaque to the registry; only
    its [name] is read, for log messages. *)
Record Ctor := MkCtor { ctor_name : string }.

#[global] Instance Ctor_eq_dec : EqDecision Ctor.
Proof. solve_decision. Defined.

(** [IWorkbenchContributionRegistration]: [{ id, ctor }]. *)
Record Registration := MkRegistration {
  reg_id : option string;
  reg_ctor : Ctor
}.

#[global] Instance Registration_eq_dec : EqDecision Registration.
Proof. solve_decision. Defined.

(** A contribution instance is a fresh object: it is identified by the
    constructor that built it and by the number of [createInstance] calls
    made before it, so two objects are the same reference exactly when they
    are equal here. *)
Record Contribution := MkContribution {
  inst_ctor : Ctor;
  inst_serial : nat
}.

#[global] Instance Contribution_eq_dec : EqDecision Contribution.
Proof. solve_decision. Defined.

(** Modelled from the spec: [DeferredPromise] comes from vs/base/common/async,
    which is not among the sources.  The spec describes the
    Restored-completion signal as a single-fire completion flag: it starts
    pending and [complete] settles it once; a settled promise ignores every
    later [complete]. *)
Inductive DeferredPromise := Pending | Resolved | Rejected.

Definition complete (p : DeferredPromise) : DeferredPromise :=
  match p with
  | Pending => Resolved
  | settled => settled
  end.

(** What the registry writes to the log service and to the console. *)
Inductive LogEntry :=
| ConsoleErrorSameId (id : string)
| WarnLazyBeforeRestored (id : string)
| ErrorUnableToCreate (name : string)
| WarnCreationTook (name : string) (time : Z).

(** The performance marks the registry emits. *)
Inductive Mark :=
| WillCreateWorkbenchContributions (phase : LP.t)
| DidCreateWorkbenchContributions (phase : LP.t)
| WillCreateWorkbenchContribution (phase : LP.t) (id : string)
| DidCreateWorkbenchContribution (phase : LP.t) (id : string).

(** Work that the source hands to the event loop:
    - [WhenPhase phase]: the continuation of [lifecycleService.when(phase)]
      registered by [instantiateByPhase];
    - [AwaitRestored cs phase]: [doInstantiateByPhase] suspended at
      [await this.pendingRestoredContributions.p];
    - [IdleCallback cs i phase forcedTimeout]: the closure [instantiateSome]
      given to [runWhenGlobalIdle], with the captured array, the captured
      counter [i] and the forced timeout. *)
Inductive Task :=
| WhenPhase (phase : LP.t)
| AwaitRestored (contributions : list Registration) (phase : LP.t)
| IdleCallback (contributions : list Registration) (i : nat) (phase : LP.t)
    (forcedTimeout : Z).

(** The registry's fields followed by the state of its collaborators. *)
Record World := MkWorld {
  (* the four service fields; [start] sets them together *)
  servicesSet : bool;
  contributionsByPhase : gmap LP.t (list Registration);
  contributionsById : gmap string Registration;
  instancesById : gmap string Contribution;
  timingsByPhase : gmap LP.t (list (string * Z));
  pendingRestoredContributions : DeferredPromise;
  (* lifecycleService.phase *)
  lifecyclePhase : LP.t;
  (* the registrations handed to instantiationService.createInstance *)
  instantiations : list Registration;
  logged : list LogEntry;
  marks : list Mark;
  scheduled : list Task
}.

Definition initial : World :=
  {| servicesSet := false;
     contributionsByPhase := ∅;
     contributionsById := ∅;
     instancesById := ∅;
     timingsByPhase := ∅;
     pendingRestoredContributions := Pending;
     lifecyclePhase := LP.Starting;
     instantiations := [];
     logged := [];
     marks := [];
     scheduled := [] |}.

(** Field updates. *)
Definition set_servicesSet (b : bool) (w : World) : World :=
  MkWorld b (contributionsByPhase w) (contributionsById w) (instancesById w)
    (timingsByPhase w) (pendingRestoredContributions w) (lifecyclePhase w)
    (instantiations w) (logged w) (marks w) (scheduled w).

Definition set_contributionsByPhase (m : gmap LP.t (list Registration)) (w : World) : World :=
  MkWorld (servicesSet w) m (contributionsById w) (instancesById w)
    (timingsByPhase w) (pendingRestoredContributions w) (lifecyclePhase w)
    (instantiations w) (logged w) (marks w) (scheduled w).

Definition set_contributionsById (m : gmap string Registration) (w : World) : World :=
  MkWorld (servicesSet w) (contributionsByPhase w) m (instancesById w)
    (timingsByPhase w) (pendingRestoredContributions w) (lifecyclePhase w)
    (instantiations w) (logged w) (marks w) (scheduled w).

Definition set_instancesById (m : gmap string Contribution) (w : World) : World :=
  MkWorld (servicesSet w) (contributionsByPhase w) (contributionsById w) m
    (timingsByPhase w) (pendingRestoredContributions w) (lifecyclePhase w)
    (instantiations w) (logged w) (marks w) (scheduled w).

Definition set_timingsByPhase (m : gmap LP.t (list (string * Z))) (w : World) : World :=
  MkWorld (servicesSet w) (contributionsByPhase w) (contributionsById w) (instancesById w)
    m (pendingRestoredContributions w) (lifecyclePhase w)
    (instantiations w) (logged w) (marks w) (scheduled w).

Definition set_pendingRestoredContributions (p : DeferredPromise) (w : World) : World :=
  MkWorld (servicesSet w) (contributionsByPhase w) (contributionsById w) (instancesById w)
    (timingsByPhase w) p (lifecyclePhase w)
    (instantiations w) (logged w) (marks w) (scheduled w).

Definition set_lifecyclePhase (p : LP.t) (w : World) : World :=
  MkWorld (servicesSet w) (contributionsByPhase w) (contributionsById w) (instancesById w)
    (timingsByPhase w) (pendingRestoredContributions w) p
    (instantiations w) (logged w) (marks w) (scheduled w).

Definition set_instantiations (l : list Registration) (w : World) : World :=
  MkWorld (servicesSet w) (contributionsByPhase w) (contributionsById w) (instancesById w)
    (timingsByPhase w) (pendingRestoredContributions w) (lifecyclePhase w)
    l (logged w) (marks w) (scheduled w).

Definition set_logged (l : list LogEntry) (w : World) : World :=
  MkWorld (servicesSet w) (contributionsByPhase w) (contributionsById w) (instancesById w)
    (timingsByPhase w) (pendingRestoredContributions w) (lifecyclePhase w)
    (instantiations w) l (marks w) (scheduled w).

Definition set_marks (l : list Mark) (w : World) : World :=
  MkWorld (servicesSet w) (contributionsByPhase w) (contributionsById w) (instancesById w)
    (timingsByPhase w) (pendingRestoredContributions w) (lifecyclePhase w)
    (instantiations w) (logged w) l (scheduled w).

Definition set_scheduled (l : list Task) (w : World) : World :=
  MkWorld (servicesSet w) (contributionsByPhase w) (contributionsById w) (instancesById w)
    (timingsByPhase w) (pendingRestoredContributions w) (lifecyclePhase w)
    (instantiations w) (logged w) (marks w) l.

(** [mark(label)], [logService.warn/error] and [console.error] append. *)
Definition mark (m : Mark) (w : World) : World := set_marks (marks w ++ [m]) w.
Definition log (e : LogEntry) (w : World) : World := set_logged (logged w ++ [e]) w.

(** [runWhenGlobalIdle(callback, timeout)] and promise continuations queue a
    task. *)
Definition schedule (t : Task) (w : World) : World :=
  set_scheduled (scheduled w ++ [t]) w.

(* ===================================================================== *)
(** ** The registry's operations *)
(* ===================================================================== *)

(** The collaborators that [start] obtains from the accessor.  What a
    constructor does is outside the registry: [createThrows ctor n] says
    whether [createInstance(ctor)] throws when [n] calls of [createInstance]
    came before, and [creationTime ctor n] is the difference of the two
    readings of [Date.now()] taken around that call.  Constructors are taken
    not to call back into the registry. *)
Record Services := MkServices {
  createThrows : Ctor → nat → bool;
  creationTime : Ctor → nat → Z;
  isBuilt : bool
}.

Definition BLOCK_BEFORE_RESTORE_WARN_THRESHOLD : Z := 20.
Definition BLOCK_AFTER_RESTORE_WARN_THRESHOLD : Z := 100.

(** [contribution.id ?? contribution.ctor.name] *)
Definition displayName (contribution : Registration) : string :=
  match reg_id contribution with
  | Some id => id
  | None => ctor_name (reg_ctor contribution)
  end.

(** [typeof contribution.id === 'string' && this.instancesById.has(contribution.id)] *)
Definition hasInstance (contribution : Registration) (w : World) : bool :=
  match reg_id contribution with
  | Some id => bool_decide (is_Some (instancesById w !! id))
  | None => false
  end.

(** [if (typeof contribution.id === 'string') mark(m contribution.id)] *)
Definition markWithId (m : string → Mark) (contribution : Registration) (w : World) : World :=
  match reg_id contribution with
  | Some id => mark (m id) w
  | None => w
  end.

(** [timingsForPhase.push([id, time])], creating the array when absent. *)
Definition pushTiming (phase : LP.t) (id : string) (time : Z) (w : World) : World :=
  set_timingsByPhase
    (<[phase := default [] (timingsByPhase w !! phase) ++ [(id, time)]]> (timingsByPhase w)) w.

(** The warning of [getWorkbenchContribution] before the Restored phase. *)
Definition warnEarly (id : string) (w : World) : World :=
  if LP.num (lifecyclePhase w) <? LP.num LP.Restored
  then log (WarnLazyBeforeRestored id) w
  else w.

Section Registry.
Variable sv : Services.

Definition safeCreateContribution (contribution : Registration) (phase : LP.t)
    (w : World) : World :=
  if hasInstance contribution w then w
  else
    (* the serial number of this call of createInstance *)
    let n := length (instantiations w) in
    (* try *)
    let w := markWithId (WillCreateWorkbenchContribution phase) contribution w in
    let w := set_instantiations (instantiations w ++ [contribution]) w in
    let w :=
      if createThrows sv (reg_ctor contribution) n then
        (* catch *)
        log (ErrorUnableToCreate (displayName contribution)) w
      else
        match reg_id contribution with
        | Some id =>
            let instance := MkContribution (reg_ctor contribution) n in
            let w := set_instancesById (<[id := instance]> (instancesById w)) w in
            set_contributionsById (delete id (contributionsById w)) w
        | None => w
        end in
    (* finally *)
    let w := markWithId (DidCreateWorkbenchContribution phase) contribution w in
    if bool_decide (is_Some (reg_id contribution)) || negb (isBuilt sv) then
      let time := creationTime sv (reg_ctor contribution) n in
      let w :=
        if (if LP.num phase <? LP.num LP.Restored
            then BLOCK_BEFORE_RESTORE_WARN_THRESHOLD
            else BLOCK_AFTER_RESTORE_WARN_THRESHOLD) <? time
        then log (WarnCreationTook (displayName contribution) time) w
        else w in
      match reg_id contribution with
      | Some id => pushTiming phase id time w
      | None => w
      end
    else w.

(** The test of [registerWorkbenchContribution2] for instantiating
    directly: not [Lazy], the services are there, and
    [this.lifecycleService.phase >= instantiation]. *)
Definition instantiatesDirectly (instantiation : WCI.t) (w : World) : bool :=
  bool_decide (instantiation ≠ WCI.Lazy) && servicesSet w
  && (WCI.num instantiation <=? LP.num (lifecyclePhase w)).

(** The "by phase" block: skipped for [Lazy], for which [toPhase] has no
    phase. *)
Definition keepByPhase (contribution : Registration) (instantiation : WCI.t)
    (w : World) : World :=
  match toPhase instantiation with
  | Some phase =>
      set_contributionsByPhase
        (<[phase := default [] (contributionsByPhase w !! phase) ++ [contribution]]>
           (contributionsByPhase w)) w
  | None => w
  end.

(** The "by id" block. *)
Definition keepById (contribution : Registration) (w : World) : World :=
  match reg_id contribution with
  | Some id =>
      if bool_decide (is_Some (contributionsById w !! id))
      then log (ConsoleErrorSameId id) w
      else set_contributionsById (<[id := contribution]> (contributionsById w)) w
  | None => w
  end.

Definition registerWorkbenchContribution2 (id : option string) (ctor : Ctor)
    (instantiation : WCI.t) (w : World) : World :=
  let contribution := MkRegistration id ctor in
  if instantiatesDirectly instantiation w then
    match toPhase instantiation with
    | Some phase => safeCreateContribution contribution phase w
    | None => w (* excluded by the test: only Lazy has no phase *)
    end
  else
    keepById contribution (keepByPhase contribution instantiation w).

Definition registerWorkbenchContribution (ctor : Ctor) (phase : LP.t) (w : World) : World :=
  registerWorkbenchContribution2 None ctor (toInstantiation phase) w.

(** The three errors [getWorkbenchContribution] throws. *)
Inductive Failure :=
| CalledBeforeStarted (id : string)
| UnknownIdentifier (id : string)
| FailedToCreate (id : string).

Inductive Outcome :=
| Returned (instance : Contribution)
| Thrown (error : Failure).

Definition getWorkbenchContribution (id : string) (w : World) : Outcome * World :=
  match instancesById w !! id with
  | Some instance => (Returned instance, w)
  | None =>
      if negb (servicesSet w) then (Thrown (CalledBeforeStarted id), w)
      else
        match contributionsById w !! id with
        | None => (Thrown (UnknownIdentifier id), w)
        | Some contribution =>
            let w := warnEarly id w in
            let w := safeCreateContribution contribution (lifecyclePhase w) w in
            match instancesById w !! id with
            | None => (Thrown (FailedToCreate id), w)
            | Some instance => (Returned instance, w)
            end
        end
  end.

(** [idle.timeRemaining() < 1] *)
Definition timeIsUp (remaining : Q) : bool := negb (Qle_bool 1 remaining).

(** The [while] loop of [instantiateSome].  [rest] is what is left of the
    array from index [i] on, and [idle k] is what the [k]-th call of
    [idle.timeRemaining()] in this slice returns.  The result is the
    counter, whether the loop rescheduled and left by [break], and the
    world. *)
Fixpoint instantiateWhile (idle : nat → Q) (k : nat) (rest : list Registration)
    (i : nat) (phase : LP.t) (w : World) : nat * bool * World :=
  match rest with
  | [] => (i, false, w)
  | contribution :: rest' =>
      let w := safeCreateContribution contribution phase w in
      if timeIsUp (idle k) then (S i, true, w)
      else instantiateWhile idle (S k) rest' (S i) phase w
  end.

(** The block after the loop: [if (i === contributions.length) ...]. *)
Definition finishBatch (phase : LP.t) (w : World) : World :=
  let w := mark (DidCreateWorkbenchContributions phase) w in
  if bool_decide (phase = LP.Restored)
  then set_pendingRestoredContributions (complete (pendingRestoredContributions w)) w
  else w.

(** One call of the closure [instantiateSome] by the idle scheduler. *)
Definition instantiateSome (contributions : list Registration) (i : nat)
    (phase : LP.t) (forcedTimeout : Z) (idle : nat → Q) (w : World) : World :=
  let '(i', rescheduled, w) :=
    instantiateWhile idle 0 (drop i contributions) i phase w in
  let w :=
    if rescheduled : bool
    then schedule (IdleCallback contributions i' phase forcedTimeout) w
    else w in
  if (i' =? length contributions)%nat then finishBatch phase w else w.

Definition doInstantiateWhenIdle (contributions : list Registration) (phase : LP.t)
    (w : World) : World :=
  let w := mark (WillCreateWorkbenchContributions phase) w in
  let forcedTimeout := if bool_decide (phase = LP.Eventually) then 3000 else 500 in
  schedule (IdleCallback contributions 0 phase forcedTimeout) w.

(** The synchronous [for ... of] loop of the Starting and Ready phases. *)
Definition instantiateAll (contributions : list Registration) (phase : LP.t)
    (w : World) : World :=
  foldl (λ w contribution, safeCreateContribution contribution phase w) w contributions.

(** [doInstantiateByPhase] up to its first suspension: the function is
    [async], and for the Eventually phase it stops at the [await]; what
    follows the [await] is the task [AwaitRestored]. *)
Definition doInstantiateByPhase (phase : LP.t) (w : World) : World :=
  match contributionsByPhase w !! phase with
  | None => w
  | Some contributions =>
      let w := set_contributionsByPhase (delete phase (contributionsByPhase w)) w in
      match phase with
      | LP.Starting | LP.Ready =>
          let w := mark (WillCreateWorkbenchContributions phase) w in
          let w := instantiateAll contributions phase w in
          mark (DidCreateWorkbenchContributions phase) w
      | LP.Restored | LP.Eventually =>
          if bool_decide (phase = LP.Eventually)
          then schedule (AwaitRestored contributions phase) w
          else doInstantiateWhenIdle contributions phase w
      end
  end.

Definition instantiateByPhase (phase : LP.t) (w : World) : World :=
  if LP.num phase <=? LP.num (lifecyclePhase w)
  then doInstantiateByPhase phase w
  else schedule (WhenPhase phase) w.

Definition start (w : World) : World :=
  let w := set_servicesSet true w in
  foldl (λ w phase, instantiateByPhase phase w) w
    [LP.Starting; LP.Ready; LP.Restored; LP.Eventually].

(* =================================================================== *)
(** ** Executions *)
(* =================================================================== *)

(** Modelled from the spec: the lifecycle service and the idle scheduler
    are not among the sources.  By the spec the phase only increases,
    [when(phase)] is a one-shot wait for "reached [phase]", and an idle
    callback is called with a deadline.  A scheduled task may run whenever
    it is enabled, in any order: this covers every order the event loop can
    choose. *)
Definition runTask (task : Task) (idle : nat → Q) (w : World) : option World :=
  match task with
  | WhenPhase phase =>
      if LP.num phase <=? LP.num (lifecyclePhase w)
      then Some (doInstantiateByPhase phase w)
      else None
  | AwaitRestored contributions phase =>
      match pendingRestoredContributions w with
      | Resolved => Some (doInstantiateWhenIdle contributions phase w)
      | _ => None
      end
  | IdleCallback contributions i phase forcedTimeout =>
      Some (instantiateSome contributions i phase forcedTimeout idle w)
  end.

(** What can happen next: a call of the registry's interface, the
    lifecycle moving on to a later phase, or the [n]-th scheduled task
    running (with deadline [idle] when it is an idle callback). *)
Inductive Action :=
| Register2 (id : option string) (ctor : Ctor) (instantiation : WCI.t)
| Register (ctor : Ctor) (phase : LP.t)
| Get (id : string)
| Start
| Advance (phase : LP.t)
| Run (n : nat) (idle : nat → Q).

Definition step (a : Action) (w : World) : option World :=
  match a with
  | Register2 id ctor instantiation =>
      Some (registerWorkbenchContribution2 id ctor instantiation w)
  | Register ctor phase => Some (registerWorkbenchContribution ctor phase w)
  | Get id => Some (snd (getWorkbenchContribution id w))
  | Start => Some (start w)
  | Advance phase =>
      if LP.num (lifecyclePhase w) <? LP.num phase
      then Some (set_lifecyclePhase phase w)
      else None
  | Run n idle =>
      match scheduled w !! n with
      | Some task => runTask task idle (set_scheduled (delete n (scheduled w)) w)
      | None => None
      end
  end.

Fixpoint run (actions : list Action) (w : World) : option World :=
  match actions with
  | [] => Some w
  | a :: actions' =>
      match step a w with
      | Some w' => run actions' w'
      | None => None
      end
  end.

End Registry.

(* ===================================================================== *)
(** ** Predicates on worlds and runs *)
(* ===================================================================== *)

(** The control fields: those that decide what is scheduled and dispatched. *)
Record same_control (w w' : World) : Prop := {
  same_servicesSet : servicesSet w' = servicesSet w;
  same_contributionsByPhase : contributionsByPhase w' = contributionsByPhase w;
  same_pendingRestored : pendingRestoredContributions w' = pendingRestoredContributions w;
  same_lifecyclePhase : lifecyclePhase w' = lifecyclePhase w;
  same_scheduled : scheduled w' = scheduled w
}.

(** The data fields: the indexes by id, the factory calls and the signal. *)
Record same_data (w w' : World) : Prop := {
  same_contributionsById : contributionsById w' = contributionsById w;
  same_instancesById : instancesById w' = instancesById w;
  same_instantiations : instantiations w' = instantiations w;
  same_signal : pendingRestoredContributions w' = pendingRestoredContributions w
}.

(** The by-id index files every registration under its own id. *)
Definition byId_keyed (w : World) : Prop :=
  ∀ i r, contributionsById w !! i = Some r → reg_id r = Some i.

(** The signal only ever moves from pending to resolved. *)
Definition signal_settles (w w' : World) : Prop :=
  pendingRestoredContributions w' = pendingRestoredContributions w
  ∨ (pendingRestoredContributions w = Pending
     ∧ pendingRestoredContributions w' = Resolved).



(** [k] consecutive slices, the [j]-th with deadline [deadline j], of the
    idle callback that sits at position [n] of the scheduled work. *)
Definition slices (n : nat) (deadline : nat → nat → Q) (s k : nat) : list Action :=
  map (λ j, Run n (deadline j)) (seq s k).

(** A task that a phase being processed, or [start], adds to the scheduled
    work of [w]. *)
Definition spawned (w : World) (t : Task) : Prop :=
  (∃ phase, t = WhenPhase phase)
  ∨ (∃ cs, t = AwaitRestored cs LP.Eventually)
  ∨ (∃ cs, t = IdleCallback cs 0 LP.Restored 500
           ∧ contributionsByPhase w !! LP.Restored = Some cs).

(** The effect of the phase driver on signal, scheduled work and by-phase
    index: the signal is left alone, tasks are only added, and entries of the
    index are only removed. *)
Record driver_effect (w w' : World) : Prop := {
  driver_signal : pendingRestoredContributions w' = pendingRestoredContributions w;
  driver_scheduled : ∃ l, scheduled w' = scheduled w ++ l ∧ Forall (spawned w) l;
  driver_byPhase : ∀ phase,
    contributionsByPhase w' !! phase = None
    ∨ contributionsByPhase w' !! phase = contributionsByPhase w !! phase
}.

Definition registersRestored (a : Action) : bool :=
  match a with
  | Register2 _ _ WCI.AfterRestored => true
  | Register _ LP.Restored => true
  | _ => false
  end.

Definition restoredCallback (t : Task) : bool :=
  match t with
  | IdleCallback _ _ LP.Restored _ => true
  | _ => false
  end.


(** No Restored-phase work anywhere: nothing pending for the phase, no idle
    callback of the phase, and the signal still pending. *)
Definition noRestoredWork (w : World) : Prop :=
  contributionsByPhase w !! LP.Restored = None
  ∧ pendingRestoredContributions w = Pending
  ∧ Forall (λ t, restoredCallback t = false) (scheduled w).






(** Whether an action is the call of [start]. *)
Definition isStart (a : Action) : bool :=
  match a with
  | Start => true
  | _ => false
  end.

(* ===================================================================== *)
(** ** Further notions: timings, settled constructions, continuations *)
(* ===================================================================== *)




(** [typeof contribution.id === 'string'] *)
Definition identified (r : Registration) : bool := bool_decide (is_Some (reg_id r)).

(** The threshold above which a creation is reported as slow. *)
Definition warnThreshold (phase : LP.t) : Z :=
  if LP.num phase <? LP.num LP.Restored
  then BLOCK_BEFORE_RESTORE_WARN_THRESHOLD
  else BLOCK_AFTER_RESTORE_WARN_THRESHOLD.

(** The construction of an id is settled: the id has an instance, or the
    failure of its construction is in the log. *)
Definition settled (id : string) (w : World) : Prop :=
  is_Some (instancesById w !! id) ∨ ErrorUnableToCreate id ∈ logged w.

(** A registration has been attempted: with an id, the construction of the
    id is settled; without one, the factory has been called for it. *)
Definition attempted (r : Registration) (w : World) : Prop :=
  match reg_id r with
  | Some id => settled id w
  | None => r ∈ instantiations w
  end.

(** A registration is held for later: in a pending sequence of the by-phase
    index, in the array of a batch that waits for the signal, or in the
    array of an idle callback at or after its counter. *)
Definition held (r : Registration) (w : World) : Prop :=
  (∃ phase cs, contributionsByPhase w !! phase = Some cs ∧ r ∈ cs)
  ∨ (∃ cs phase, AwaitRestored cs phase ∈ scheduled w ∧ r ∈ cs)
  ∨ (∃ cs i phase forcedTimeout,
       IdleCallback cs i phase forcedTimeout ∈ scheduled w ∧ r ∈ drop i cs).

Definition accounted (r : Registration) (w : World) : Prop :=
  attempted r w ∨ held r w.

(** In a started registry, every phase that is still ahead, and every phase
    with a pending sequence, has its continuation among the scheduled
    work. *)
Definition continuationsScheduled (w : World) : Prop :=
  servicesSet w = true →
  ∀ phase,
    LP.num (lifecyclePhase w) < LP.num phase
    ∨ is_Some (contributionsByPhase w !! phase) →
    WhenPhase phase ∈ scheduled w.



(** localHistory.contribution.ts: the module registers the class
    [LocalHistoryTimeline] under [LocalHistoryTimeline.ID] with
    [BlockRestore].  The class is declared in localHistoryTimeline.ts, which
    is not among the sources: its id is a parameter, and of the class only
    the name is used. *)
Definition LocalHistoryTimeline : Ctor := MkCtor "LocalHistoryTimeline".

Definition registerLocalHistoryTimeline (sv : Services) (ID : string) (w : World) : World :=
  registerWorkbenchContribution2 sv (Some ID) LocalHistoryTimeline WCI.BlockRestore w.

(** The ids of the warnings "lazy contribution instantiated before
    LifecyclePhase.Restored" in the log, in order. *)
Definition earlyWarnings (w : World) : list string :=
  omap (λ e, match e with WarnLazyBeforeRestored id => Some id | _ => None end)
       (logged w).

(** The ids of the factory calls, in order; calls for registrations without
    an id have none. *)
Definition calledIds (w : World) : list string := omap reg_id (instantiations w).

(** The registration an action makes, with its instantiation kind. *)
Definition registrationOf (a : Action) : option (Registration * WCI.t) :=
  match a with
  | Register2 id ctor instantiation => Some (MkRegistration id ctor, instantiation)
  | Register ctor phase => Some (MkRegistration None ctor, toInstantiation phase)
  | _ => None
  end.

(** The registrations a sequence of actions makes for a phase, in order. *)
Definition registeredFor (phase : LP.t) (actions : list Action) : list Registration :=
  omap (λ a, match registrationOf a with
             | Some (r, instantiation) =>
                 if bool_decide (toPhase instantiation = Some phase) then Some r else None
             | None => None
             end) actions.

(* ===================================================================== *)
(** ** Concrete inputs *)
(* ===================================================================== *)

Definition ctorA : Ctor := MkCtor "A".
Definition ctorB : Ctor := MkCtor "B".
Definition ctorBad : Ctor := MkCtor "Bad".

(** Every constructor succeeds, in no time. *)
Definition reliable : Services := MkServices (λ _ _, false) (λ _ _, 0) true.

(** The constructor [ctorBad] always throws. *)
Definition failing : Services :=
  MkServices (λ c _, bool_decide (c = ctorBad)) (λ _ _, 0) true.

(** Every constructor succeeds, and takes 150. *)
Definition sluggish : Services := MkServices (λ _ _, false) (λ _ _, 150) true.

(** A deadline with no time left, and one with plenty. *)
Definition busy : nat → Q := λ _, 0%Q.

(* ===================================================================== *)
(** ** What each operation leaves alone *)
(* ===================================================================== *)

Ltac world_simpl :=
  cbn [servicesSet contributionsByPhase contributionsById instancesById
       timingsByPhase pendingRestoredContributions lifecyclePhase instantiations
       logged marks scheduled
       set_servicesSet set_contributionsByPhase set_contributionsById
       set_instancesById set_timingsByPhase set_pendingRestoredContributions
       set_lifecyclePhase set_instantiations set_logged set_marks set_scheduled
       mark log schedule pushTiming markWithId] in *.

Lemma toPhase_None instantiation :
  toPhase instantiation = None ↔ instantiation = WCI.Lazy.
Proof. by destruct instantiation. Qed.

Lemma timeIsUp_lt remaining : timeIsUp remaining = true ↔ (remaining < 1)%Q.
Proof.
  unfold timeIsUp. rewrite negb_true_iff, <- not_true_iff_false, Qle_bool_iff.
  split; [apply Qnot_le_lt | apply Qlt_not_le].
Qed.

Lemma same_control_refl w : same_control w w.
Proof. by split. Qed.

Lemma same_control_trans w1 w2 w3 :
  same_control w1 w2 → same_control w2 w3 → same_control w1 w3.
Proof. intros [] []. split; congruence. Qed.

Lemma warnEarly_control id w : same_control w (warnEarly id w).
Proof. unfold warnEarly. case_match; by split. Qed.

Lemma warnEarly_data id w : same_data w (warnEarly id w).
Proof. unfold warnEarly. case_match; by split. Qed.

Section Frame.
Variable sv : Services.

Lemma safeCreate_cached contribution phase w :
  hasInstance contribution w = true →
  safeCreateContribution sv contribution phase w = w.
Proof. intros H. unfold safeCreateContribution. by rewrite H. Qed.

Lemma safeCreate_control contribution phase w :
  same_control w (safeCreateContribution sv contribution phase w).
Proof.
  unfold safeCreateContribution.
  destruct contribution as [[id|] c]; unfold hasInstance; simpl;
    repeat case_match; world_simpl; by split.
Qed.

(** A call of the factory is recorded exactly when no instance is cached
    under the registration's id. *)
Lemma safeCreate_instantiations contribution phase w :
  instantiations (safeCreateContribution sv contribution phase w)
  = instantiations w ++ (if hasInstance contribution w then [] else [contribution]).
Proof.
  unfold safeCreateContribution.
  destruct (hasInstance contribution w); [by rewrite app_nil_r|].
  destruct contribution as [[id|] c]; simpl;
    repeat case_match; world_simpl; done.
Qed.

(** The instance cache after a construction attempt. *)
Lemma safeCreate_instancesById contribution phase w :
  instancesById (safeCreateContribution sv contribution phase w)
  = match reg_id contribution with
    | Some id =>
        if hasInstance contribution w then instancesById w
        else if createThrows sv (reg_ctor contribution) (length (instantiations w))
        then instancesById w
        else <[id := MkContribution (reg_ctor contribution) (length (instantiations w))]>
               (instancesById w)
    | None => instancesById w
    end.
Proof.
  unfold safeCreateContribution.
  destruct contribution as [[id|] c]; unfold hasInstance; simpl;
    repeat case_match; world_simpl; done.
Qed.

(** The by-id index after a construction attempt. *)
Lemma safeCreate_contributionsById contribution phase w :
  contributionsById (safeCreateContribution sv contribution phase w)
  = match reg_id contribution with
    | Some id =>
        if hasInstance contribution w then contributionsById w
        else if createThrows sv (reg_ctor contribution) (length (instantiations w))
        then contributionsById w
        else delete id (contributionsById w)
    | None => contributionsById w
    end.
Proof.
  unfold safeCreateContribution.
  destruct contribution as [[id|] c]; unfold hasInstance; simpl;
    repeat case_match; world_simpl; done.
Qed.

Lemma instantiateAll_control contributions phase w :
  same_control w (instantiateAll sv contributions phase w).
Proof.
  revert w. induction contributions as [|c cs IH]; intros w; simpl.
  - apply same_control_refl.
  - eapply same_control_trans; [apply safeCreate_control | apply IH].
Qed.

Lemma instantiateWhile_control idle k rest i phase w :
  same_control w (instantiateWhile sv idle k rest i phase w).2.
Proof.
  revert k i w. induction rest as [|c cs IH]; intros k i w; simpl.
  - apply same_control_refl.
  - destruct (timeIsUp (idle k)); simpl.
    + apply safeCreate_control.
    + eapply same_control_trans; [apply safeCreate_control | apply IH].
Qed.
End Frame.

(* ===================================================================== *)
(** ** Registration *)
(* ===================================================================== *)

Section Registration.
Variable sv : Services.

Lemma instantiatesDirectly_true instantiation w :
  instantiatesDirectly instantiation w = true ↔
  servicesSet w = true ∧ WCI.num instantiation <= LP.num (lifecyclePhase w)
  ∧ instantiation ≠ WCI.Lazy.
Proof.
  unfold instantiatesDirectly.
  rewrite !andb_true_iff, bool_decide_eq_true, Z.leb_le. tauto.
Qed.

(** The store path touches neither the instance cache, nor the factory,
    nor the scheduled work, nor the completion signal. *)
Lemma keep_quiet contribution instantiation w :
  let w' := keepById contribution (keepByPhase contribution instantiation w) in
  instantiations w' = instantiations w ∧ instancesById w' = instancesById w
  ∧ scheduled w' = scheduled w
  ∧ pendingRestoredContributions w' = pendingRestoredContributions w
  ∧ timingsByPhase w' = timingsByPhase w
  ∧ servicesSet w' = servicesSet w ∧ lifecyclePhase w' = lifecyclePhase w.
Proof.
  unfold keepById, keepByPhase.
  destruct contribution as [[id|] c]; destruct (toPhase instantiation); simpl;
    repeat case_match; world_simpl; done.
Qed.

(** C9: a Lazy registration without an id changes nothing at all: the
    world after it is the world before it, so the factory is not called by
    it, and no later sequence of actions can tell that it happened. *)
Theorem lazy_without_id_is_lost ctor w :
  registerWorkbenchContribution2 sv None ctor WCI.Lazy w = w
  ∧ ∀ actions,
      run sv actions (registerWorkbenchContribution2 sv None ctor WCI.Lazy w)
      = run sv actions w.
Proof.
  assert (registerWorkbenchContribution2 sv None ctor WCI.Lazy w = w) as E.
  { unfold registerWorkbenchContribution2, instantiatesDirectly.
    rewrite bool_decide_eq_false_2 by (intros H; by apply H). reflexivity. }
  split; [exact E | intros actions; by rewrite E].
Qed.

(** C10: [toPhase] undoes [toInstantiation] on each of the four phases, and
    the deprecated [registerWorkbenchContribution] is
    [registerWorkbenchContribution2] without an id at the corresponding
    instantiation kind. *)
Theorem toPhase_toInstantiation_and_deprecated_register phase ctor w :
  toPhase (toInstantiation phase) = Some phase
  ∧ WCI.num (toInstantiation phase) = LP.num phase
  ∧ registerWorkbenchContribution sv ctor phase w
    = registerWorkbenchContribution2 sv None ctor (toInstantiation phase) w.
Proof. by destruct phase. Qed.

End Registration.

(* ===================================================================== *)
(** ** Relations that every action respects *)
(* ===================================================================== *)

(** Every operation of the registry is built from four kinds of updates: a
    construction attempt, a by-id registration, settling the signal, and
    updates that leave the data fields alone.  A preorder that contains these
    four contains every step, hence every run. *)
Section Preservation.
Variable sv : Services.
Variable R : World → World → Prop.
Hypothesis R_refl : ∀ w, R w w.
Hypothesis R_trans : ∀ w1 w2 w3, R w1 w2 → R w2 w3 → R w1 w3.
Hypothesis R_safeCreate : ∀ c phase w, R w (safeCreateContribution sv c phase w).
Hypothesis R_keepById : ∀ c w, R w (keepById c w).
Hypothesis R_complete : ∀ w,
  R w (set_pendingRestoredContributions (complete (pendingRestoredContributions w)) w).
Hypothesis R_quiet : ∀ w w', same_data w w' → R w w'.

Local Ltac quiet := apply R_quiet; split; reflexivity.

Lemma R_instantiateAll cs phase w : R w (instantiateAll sv cs phase w).
Proof.
  revert w. induction cs as [|c cs IH]; intros w; simpl; [apply R_refl|].
  eapply R_trans; [apply R_safeCreate | apply IH].
Qed.

Lemma R_instantiateWhile idle k rest i phase w :
  R w (instantiateWhile sv idle k rest i phase w).2.
Proof.
  revert k i w. induction rest as [|c cs IH]; intros k i w; simpl; [apply R_refl|].
  destruct (timeIsUp (idle k)); simpl; [apply R_safeCreate|].
  eapply R_trans; [apply R_safeCreate | apply IH].
Qed.

Lemma R_finishBatch phase w : R w (finishBatch phase w).
Proof.
  unfold finishBatch. case_bool_decide.
  - eapply R_trans; [|apply R_complete]. quiet.
  - quiet.
Qed.

Lemma R_instantiateSome cs i phase forcedTimeout idle w :
  R w (instantiateSome sv cs i phase forcedTimeout idle w).
Proof.
  unfold instantiateSome.
  pose proof (R_instantiateWhile idle 0 (drop i cs) i phase w) as H.
  destruct (instantiateWhile sv idle 0 (drop i cs) i phase w) as [[i' r] w1].
  simpl in H.
  assert (R w (if r then schedule (IdleCallback cs i' phase forcedTimeout) w1 else w1)) as H1.
  { destruct r; [|done]. eapply R_trans; [exact H|]. quiet. }
  destruct (i' =? length cs)%nat; [|exact H1].
  eapply R_trans; [exact H1 | apply R_finishBatch].
Qed.

Lemma R_doInstantiateWhenIdle cs phase w : R w (doInstantiateWhenIdle cs phase w).
Proof. quiet. Qed.

Lemma R_doInstantiateByPhase phase w : R w (doInstantiateByPhase sv phase w).
Proof.
  unfold doInstantiateByPhase.
  destruct (contributionsByPhase w !! phase) as [cs|]; [|apply R_refl].
  destruct phase; simpl.
  1,2: match goal with
       | |- R _ (mark _ (instantiateAll _ ?l ?p ?w0)) =>
           apply (R_trans _ w0); [quiet|];
           apply (R_trans _ (instantiateAll sv l p w0));
           [apply R_instantiateAll | quiet]
       end.
  all: quiet.
Qed.

Lemma R_instantiateByPhase phase w : R w (instantiateByPhase sv phase w).
Proof.
  unfold instantiateByPhase. case_match; [apply R_doInstantiateByPhase | quiet].
Qed.

Lemma R_start w : R w (start sv w).
Proof.
  unfold start. simpl.
  eapply R_trans; [|apply R_instantiateByPhase].
  eapply R_trans; [|apply R_instantiateByPhase].
  eapply R_trans; [|apply R_instantiateByPhase].
  eapply R_trans; [|apply R_instantiateByPhase].
  quiet.
Qed.

Lemma R_register2 id ctor instantiation w :
  R w (registerWorkbenchContribution2 sv id ctor instantiation w).
Proof.
  unfold registerWorkbenchContribution2.
  case_match; [case_match; [apply R_safeCreate | apply R_refl]|].
  eapply R_trans; [|apply R_keepById].
  unfold keepByPhase. case_match; [quiet | apply R_refl].
Qed.

Lemma R_get id w : R w (getWorkbenchContribution sv id w).2.
Proof.
  unfold getWorkbenchContribution.
  repeat (case_match; simpl; try apply R_refl);
    (eapply R_trans; [|apply R_safeCreate]); apply R_quiet, warnEarly_data.
Qed.

Lemma R_runTask task idle w w' : runTask sv task idle w = Some w' → R w w'.
Proof.
  destruct task; simpl.
  - case_match; [|done]. intros [= <-]. apply R_doInstantiateByPhase.
  - case_match; try done. intros [= <-]. apply R_doInstantiateWhenIdle.
  - intros [= <-]. apply R_instantiateSome.
Qed.

Lemma R_step a w w' : step sv a w = Some w' → R w w'.
Proof.
  destruct a; simpl.
  - intros [= <-]. apply R_register2.
  - intros [= <-]. apply R_register2.
  - intros [= <-]. apply R_get.
  - intros [= <-]. apply R_start.
  - case_match; [|done]. intros [= <-]. quiet.
  - destruct (scheduled w !! n) as [task|]; [|done]. intros Ht%R_runTask.
    eapply R_trans; [|exact Ht]. quiet.
Qed.

Lemma R_run actions w w' : run sv actions w = Some w' → R w w'.
Proof.
  revert w. induction actions as [|a actions IH]; intros w; simpl.
  - intros [= <-]. apply R_refl.
  - destruct (step sv a w) as [w1|] eqn:S; [|done].
    intros H. eapply R_trans; [eapply R_step, S | by apply IH].
Qed.
End Preservation.

(* ===================================================================== *)
(** ** Invariants of every run *)
(* ===================================================================== *)

Section Invariants.
Variable sv : Services.

Lemma hasInstance_true contribution w :
  hasInstance contribution w = true ↔
  ∃ id, reg_id contribution = Some id ∧ is_Some (instancesById w !! id).
Proof.
  unfold hasInstance. destruct (reg_id contribution) as [id|].
  - rewrite bool_decide_eq_true. split; [eauto | by intros (? & [= <-] & ?)].
  - split; [done | by intros (? & ? & ?)].
Qed.

Lemma run_byId_keyed actions w w' :
  run sv actions w = Some w' → byId_keyed w → byId_keyed w'.
Proof.
  apply (R_run sv (λ w w', byId_keyed w → byId_keyed w')); clear.
  - done.
  - auto.
  - intros c phase w Hk i r. rewrite safeCreate_contributionsById.
    repeat case_match; try apply Hk.
    intros [_ Hl]%lookup_delete_Some. by apply Hk.
  - intros [[id|] c] w Hk i r; unfold keepById; simpl; [|apply Hk].
    case_bool_decide; world_simpl; [apply Hk|].
    intros [[<- <-]|[_ Hl]]%lookup_insert_Some; [done | by apply Hk].
  - intros w Hk. exact Hk.
  - intros w w' [E _ _ _] Hk i r. rewrite E. apply Hk.
Qed.

Lemma run_signal_settles actions w w' :
  run sv actions w = Some w' → signal_settles w w'.
Proof.
  apply (R_run sv signal_settles); clear; unfold signal_settles.
  - by left.
  - intros w1 w2 w3 [E1|[E1 E1']] [E2|[E2 E2']]; try (left; congruence);
      right; split; congruence.
  - intros c phase w. left. apply (safeCreate_control sv).
  - intros c w. left. unfold keepById. repeat case_match; done.
  - intros w. simpl. destruct (pendingRestoredContributions w); auto.
  - intros w w' [_ _ _ E]. by left.
Qed.


End Invariants.

(* ===================================================================== *)
(** ** Lookup *)
(* ===================================================================== *)

Section Lookup.
Variable sv : Services.

Lemma byId_keyed_initial : byId_keyed initial.
Proof. intros i r. unfold initial; simpl. by rewrite lookup_empty. Qed.

(** A failed construction is reported to the log service. *)
Lemma safeCreate_failure_logged contribution phase w :
  hasInstance contribution w = false →
  createThrows sv (reg_ctor contribution) (length (instantiations w)) = true →
  ErrorUnableToCreate (displayName contribution)
  ∈ logged (safeCreateContribution sv contribution phase w).
Proof.
  intros Hh Ht. unfold safeCreateContribution. rewrite Hh.
  destruct contribution as [[id|] c]; simpl in *; world_simpl; rewrite Ht;
    repeat case_match; world_simpl; set_solver.
Qed.

End Lookup.

(* ===================================================================== *)
(** ** The phase driver *)
(* ===================================================================== *)

Section PhaseDriver.
Variable sv : Services.

(** What processing a phase does to the control fields. *)
Lemma doInstantiateByPhase_control phase w :
  let w' := doInstantiateByPhase sv phase w in
  servicesSet w' = servicesSet w
  ∧ lifecyclePhase w' = lifecyclePhase w
  ∧ pendingRestoredContributions w' = pendingRestoredContributions w
  ∧ contributionsByPhase w' = delete phase (contributionsByPhase w)
  ∧ scheduled w'
    = scheduled w
      ++ match contributionsByPhase w !! phase, phase with
         | Some cs, LP.Restored => [IdleCallback cs 0 LP.Restored 500]
         | Some cs, LP.Eventually => [AwaitRestored cs LP.Eventually]
         | _, _ => []
         end.
Proof.
  unfold doInstantiateByPhase.
  destruct (contributionsByPhase w !! phase) as [cs|] eqn:E.
  - destruct phase; simpl.
    1,2: match goal with
         | |- context [instantiateAll sv ?l ?p ?w0] =>
             destruct (instantiateAll_control sv l p w0) as [-> -> -> -> ->]
         end; simpl; by rewrite app_nil_r.
    all: done.
  - simpl. rewrite app_nil_r, delete_id by done. by destruct phase.
Qed.

End PhaseDriver.

(* ===================================================================== *)
(** ** The idle runner *)
(* ===================================================================== *)

Lemma set_scheduled_same w : set_scheduled (scheduled w) w = w.
Proof. by destruct w. Qed.

Lemma set_scheduled_id l w : scheduled w = l → set_scheduled l w = w.
Proof. intros <-. apply set_scheduled_same. Qed.

Lemma set_scheduled_twice l l' w :
  set_scheduled l (set_scheduled l' w) = set_scheduled l w.
Proof. done. Qed.

Section IdleRunner.
Variable sv : Services.

Lemma safeCreate_set_scheduled l c phase w :
  safeCreateContribution sv c phase (set_scheduled l w)
  = set_scheduled l (safeCreateContribution sv c phase w).
Proof.
  unfold safeCreateContribution, hasInstance.
  destruct c as [[id|] c]; simpl; repeat case_match; done.
Qed.

Lemma instantiateAll_set_scheduled l cs phase w :
  instantiateAll sv cs phase (set_scheduled l w)
  = set_scheduled l (instantiateAll sv cs phase w).
Proof.
  revert w. induction cs as [|c cs IH]; intros w; simpl; [done|].
  by rewrite safeCreate_set_scheduled, IH.
Qed.

Lemma finishBatch_set_scheduled l phase w :
  finishBatch phase (set_scheduled l w) = set_scheduled l (finishBatch phase w).
Proof. unfold finishBatch. by case_bool_decide. Qed.

Lemma finishBatch_quiet phase w :
  scheduled (finishBatch phase w) = scheduled w
  ∧ instantiations (finishBatch phase w) = instantiations w
  ∧ instancesById (finishBatch phase w) = instancesById w.
Proof. unfold finishBatch. by case_bool_decide. Qed.

Lemma instantiateAll_app cs1 cs2 phase w :
  instantiateAll sv (cs1 ++ cs2) phase w
  = instantiateAll sv cs2 phase (instantiateAll sv cs1 phase w).
Proof. apply foldl_app. Qed.

(** The loop handles the next [n] registrations in order and stops either
    at the end of the array or by [break], after the first call of
    [timeRemaining] that reports less than 1. *)
Lemma instantiateWhile_spec idle k rest i phase w :
  ∃ n,
    instantiateWhile sv idle k rest i phase w
    = ((i + n)%nat,
       bool_decide (1 ≤ n)%nat && timeIsUp (idle (k + n - 1)%nat),
       instantiateAll sv (take n rest) phase w)
    ∧ (n ≤ length rest)%nat
    ∧ (rest ≠ [] → 1 ≤ n)%nat
    ∧ (∀ j, (j + 1 < n)%nat → timeIsUp (idle (k + j)%nat) = false)
    ∧ (n < length rest → timeIsUp (idle (k + n - 1)%nat) = true)%nat.
Proof.
  revert k i w. induction rest as [|c rest IH]; intros k i w.
  - exists 0%nat. simpl. rewrite Nat.add_0_r.
    repeat split; try done; try lia; intros; lia.
  - simpl. destruct (timeIsUp (idle k)) eqn:T.
    + exists 1%nat. simpl. rewrite Nat.add_1_r.
      replace (k + 1 - 1)%nat with k by lia. rewrite T.
      repeat split; try done; try lia; intros; lia.
    + destruct (IH (S k) (S i) (safeCreateContribution sv c phase w))
        as (n & E & Hle & Hne & Hbefore & Hbreak).
      exists (S n). rewrite E.
      assert (bool_decide (1 ≤ n)%nat && timeIsUp (idle (S k + n - 1)%nat)
              = bool_decide (1 ≤ S n)%nat && timeIsUp (idle (k + S n - 1)%nat)) as ->.
      { rewrite (bool_decide_eq_true_2 (1 ≤ S n)%nat) by lia.
        destruct n as [|n].
        - simpl. replace (k + 1 - 1)%nat with k by lia. by rewrite T.
        - rewrite bool_decide_eq_true_2 by lia. simpl. f_equal. f_equal. lia. }
      replace (S i + n)%nat with (i + S n)%nat by lia.
      split; [reflexivity|]. split; [simpl; lia|]. split; [lia|]. split.
      * intros [|j] Hj.
        -- by rewrite Nat.add_0_r.
        -- replace (k + S j)%nat with (S k + j)%nat by lia. apply Hbefore. lia.
      * intros Hlt. replace (k + S n - 1)%nat with (S k + n - 1)%nat.
        -- apply Hbreak. simpl in Hlt. lia.
        -- destruct n; [|lia]. destruct rest; simpl in *; [lia|].
           specialize (Hne ltac:(done)). lia.
Qed.

(** One slice, from counter [i]: the next [n] registrations are
    instantiated in order; the callback is scheduled again exactly when the
    last call of [timeRemaining] reported less than 1; and the batch is
    finished when the counter has reached the length of the array. *)
Lemma instantiateSome_spec cs i phase forcedTimeout idle w :
  ∃ n,
    let rescheduled := bool_decide (1 ≤ n)%nat && timeIsUp (idle (n - 1)%nat) in
    instantiateSome sv cs i phase forcedTimeout idle w
    = (if (i + n =? length cs)%nat then finishBatch phase else id)
        ((if rescheduled
          then schedule (IdleCallback cs (i + n) phase forcedTimeout)
          else id)
           (instantiateAll sv (take n (drop i cs)) phase w))
    ∧ (n ≤ length (drop i cs))%nat
    ∧ (i < length cs → 1 ≤ n)%nat
    ∧ (∀ j, (j + 1 < n)%nat → timeIsUp (idle j) = false)
    ∧ (rescheduled = false → i ≤ length cs → i + n = length cs)%nat.
Proof.
  destruct (instantiateWhile_spec idle 0 (drop i cs) i phase w)
    as (n & E & Hle & Hne & Hbefore & Hbreak).
  exists n. simpl in *. unfold instantiateSome. rewrite E.
  split; [by repeat case_match|]. split; [done|]. split; [|split].
  - intros Hi. apply Hne. intros Hd. apply (f_equal length) in Hd.
    rewrite length_drop in Hd. simpl in Hd. lia.
  - exact Hbefore.
  - intros Hr Hi. rewrite length_drop in Hle, Hbreak.
    destruct (decide (n < length cs - i)%nat) as [Hlt|]; [|lia].
    rewrite (Hbreak Hlt), andb_true_r in Hr.
    apply bool_decide_eq_false in Hr.
    assert (drop i cs ≠ []) as Hd.
    { intros Hd. apply (f_equal length) in Hd.
      rewrite length_drop in Hd. simpl in Hd. lia. }
    specialize (Hne Hd). lia.
Qed.

(** Running the idle callback at the end of the scheduled work. *)
Lemma run_slice ts cs i phase forcedTimeout idle w :
  scheduled w = ts ++ [IdleCallback cs i phase forcedTimeout] →
  step sv (Run (length ts) idle) w
  = Some (instantiateSome sv cs i phase forcedTimeout idle (set_scheduled ts w)).
Proof.
  intros E. simpl. rewrite E, list_lookup_middle by done. simpl.
  do 2 f_equal. f_equal.
  change (ts ++ [IdleCallback cs i phase forcedTimeout])
    with (ts ++ IdleCallback cs i phase forcedTimeout :: []).
  by rewrite delete_middle, app_nil_r.
Qed.

Lemma slices_S n deadline s k :
  slices n deadline s (S k) = Run n (deadline s) :: slices n deadline (S s) k.
Proof. reflexivity. Qed.

(** The slice that finds the counter at the end of the array instantiates
    nothing, finishes the batch and does not come back. *)
Lemma drain_last ts cs phase forcedTimeout deadline s w :
  scheduled w = ts ++ [IdleCallback cs (length cs) phase forcedTimeout] →
  run sv (slices (length ts) deadline s 1) w
  = Some (finishBatch phase (set_scheduled ts w)).
Proof.
  intros E. rewrite slices_S. cbn [run slices map seq].
  rewrite (run_slice ts _ _ _ _ _ _ E).
  unfold instantiateSome. rewrite drop_all. simpl.
  by rewrite Nat.eqb_refl.
Qed.

(** Draining a batch from counter [i], with [m] registrations to go: the
    callback is gone after [k ≤ m + 1] slices, the net effect is that of
    instantiating the rest in order and finishing the batch (once, or
    twice when the slice that took the last registration rescheduled), and
    already the first [k0 ≤ m] slices made every factory call. *)
Lemma drain_from ts cs phase forcedTimeout deadline m : ∀ i s w,
  (i + m = length cs)%nat →
  scheduled w = ts ++ [IdleCallback cs i phase forcedTimeout] →
  ∃ k k0 w' w'',
    (k ≤ m + 1)%nat ∧ (k0 ≤ m)%nat ∧ (k0 ≤ k)%nat
    ∧ run sv (slices (length ts) deadline s k) w = Some w'
    ∧ scheduled w' = ts
    ∧ (let done := instantiateAll sv (drop i cs) phase (set_scheduled ts w) in
       w' = finishBatch phase done ∨ w' = finishBatch phase (finishBatch phase done))
    ∧ run sv (slices (length ts) deadline s k0) w = Some w''
    ∧ instantiations w'' = instantiations w'
    ∧ instancesById w'' = instancesById w'.
Proof.
  induction m as [m IH] using lt_wf_ind. intros i s w Hm E.
  destruct (decide (m = 0%nat)) as [->|Hpos].
  { assert (i = length cs) as -> by lia.
    exists 1%nat, 0%nat, (finishBatch phase (set_scheduled ts w)), w.
    rewrite (drain_last _ _ _ _ _ _ _ E), drop_all.
    destruct (finishBatch_quiet phase (set_scheduled ts w)) as (-> & -> & ->).
    repeat split; try done; try lia. by left. }
  pose proof (run_slice ts cs i phase forcedTimeout (deadline s) w E) as Hstep.
  destruct (instantiateSome_spec cs i phase forcedTimeout (deadline s) (set_scheduled ts w))
    as (n & Hsome & Hle & Hone & _ & Hend).
  cbv zeta in Hsome, Hend. rewrite length_drop in Hle.
  specialize (Hone ltac:(lia)).
  set (X := instantiateAll sv (take n (drop i cs)) phase (set_scheduled ts w)) in *.
  assert (scheduled X = ts) as HX.
  { subst X. by destruct (instantiateAll_control sv (take n (drop i cs)) phase
                            (set_scheduled ts w)) as [_ _ _ _ ->]. }
  assert (instantiateAll sv (drop i cs) phase (set_scheduled ts w)
          = instantiateAll sv (drop (i + n) cs) phase X) as Hall.
  { subst X. rewrite <- instantiateAll_app, <- drop_drop, take_drop. done. }
  destruct (bool_decide (1 ≤ n)%nat && timeIsUp (deadline s (n - 1)%nat)) eqn:Hr.
  - (* the slice rescheduled *)
    destruct (i + n =? length cs)%nat eqn:Hfull.
    + (* ... after the last registration *)
      apply Nat.eqb_eq in Hfull.
      set (w1 := finishBatch phase (schedule (IdleCallback cs (i + n) phase forcedTimeout) X)) in *.
      assert (scheduled w1 = ts ++ [IdleCallback cs (length cs) phase forcedTimeout]) as E1.
      { subst w1. destruct (finishBatch_quiet phase
          (schedule (IdleCallback cs (i + n) phase forcedTimeout) X)) as (-> & _).
        simpl. by rewrite HX, Hfull. }
      exists 2%nat, 1%nat, (finishBatch phase (set_scheduled ts w1)), w1.
      split; [lia|]. split; [lia|]. split; [lia|].
      split.
      { rewrite slices_S. cbn [run]. rewrite Hstep, Hsome.
        apply (drain_last _ _ _ _ _ _ _ E1). }
      split.
      { by destruct (finishBatch_quiet phase (set_scheduled ts w1)) as (-> & _). }
      split.
      { right. rewrite Hall, Hfull, drop_all. simpl. subst w1.
        unfold schedule. rewrite !finishBatch_set_scheduled, set_scheduled_twice.
        rewrite <- !finishBatch_set_scheduled. by rewrite (set_scheduled_id _ _ HX). }
      split.
      { rewrite slices_S. cbn [run]. by rewrite Hstep, Hsome. }
      by destruct (finishBatch_quiet phase (set_scheduled ts w1)) as (_ & -> & ->).
    + (* ... with registrations left *)
      apply Nat.eqb_neq in Hfull.
      set (w1 := schedule (IdleCallback cs (i + n) phase forcedTimeout) X) in *.
      assert (scheduled w1 = ts ++ [IdleCallback cs (i + n) phase forcedTimeout]) as E1.
      { subst w1. simpl. by rewrite HX. }
      destruct (IH (m - n)%nat ltac:(lia) (i + n)%nat (S s) w1 ltac:(lia) E1)
        as (k & k0 & w' & w'' & Hk & Hk0 & Hkk & Hrun & Hsch & Hnet & Hrun0 & Hi & Hc).
      exists (S k), (S k0), w', w''.
      split; [lia|]. split; [lia|]. split; [lia|].
      split. { rewrite slices_S. cbn [run]. by rewrite Hstep, Hsome. }
      split; [done|]. split.
      { cbv zeta in *. rewrite Hall.
        replace (set_scheduled ts w1) with X in Hnet; [done|].
        subst w1. unfold schedule.
        by rewrite set_scheduled_twice, (set_scheduled_id _ _ HX). }
      split; [|done]. rewrite slices_S. cbn [run]. by rewrite Hstep, Hsome.
  - (* the slice ran to the end of the array *)
    specialize (Hend eq_refl ltac:(lia)).
    rewrite Hend, Nat.eqb_refl in Hsome. simpl in Hsome.
    exists 1%nat, 1%nat, (finishBatch phase X), (finishBatch phase X).
    split; [lia|]. split; [lia|]. split; [lia|].
    assert (run sv (slices (length ts) deadline s 1) w = Some (finishBatch phase X)) as Hrun.
    { rewrite slices_S. cbn [run slices map seq]. by rewrite Hstep, Hsome. }
    split; [done|]. split.
    { by destruct (finishBatch_quiet phase X) as (-> & _). }
    split; [|done]. left. cbv zeta. rewrite Hall, Hend, drop_all. done.
Qed.
End IdleRunner.

Section IdleDrain.
Variable sv : Services.

(** C8 (as amended): a batch handed to the idle runner is scheduled with
    forced timeout 3000 for Eventually and 500 otherwise.  A slice
    instantiates the next [n] registrations in order, at least one when one
    is left; it schedules itself again, with the same array, phase and
    forced timeout, only when the call of [timeRemaining] after its last
    instantiation reported less than 1, and always when it stops before the
    end of the array.  Whatever the deadlines, the callback is gone after
    [k ≤ N + 1] slices, the net effect is that of instantiating the whole
    array in order and finishing the batch, and the first [k0 ≤ N] slices
    already made every factory call. *)
Theorem idle_batch_is_drained_in_order cs phase deadline w :
  let N := length cs in
  let forcedTimeout := if bool_decide (phase = LP.Eventually) then 3000 else 500 in
  let w0 := doInstantiateWhenIdle cs phase w in
  scheduled w0 = scheduled w ++ [IdleCallback cs 0 phase forcedTimeout]
  ∧ (∀ i idle w1, ∃ n,
       let rescheduled := bool_decide (1 ≤ n)%nat && timeIsUp (idle (n - 1)%nat) in
       instantiateSome sv cs i phase forcedTimeout idle w1
       = (if (i + n =? N)%nat then finishBatch phase else id)
           ((if rescheduled
             then schedule (IdleCallback cs (i + n) phase forcedTimeout)
             else id)
              (instantiateAll sv (take n (drop i cs)) phase w1))
       ∧ (i + n ≤ max i N)%nat
       ∧ (i < N → 1 ≤ n)%nat
       ∧ (∀ j, (j + 1 < n)%nat → timeIsUp (idle j) = false)
       ∧ (rescheduled = false → i ≤ N → i + n = N)%nat)
  ∧ ∃ k k0 w' w'',
      (k ≤ N + 1)%nat ∧ (k0 ≤ N)%nat ∧ (k0 ≤ k)%nat
      ∧ run sv (slices (length (scheduled w)) deadline 0 k) w0 = Some w'
      ∧ scheduled w' = scheduled w
      ∧ (let done :=
           instantiateAll sv cs phase (mark (WillCreateWorkbenchContributions phase) w) in
         w' = finishBatch phase done ∨ w' = finishBatch phase (finishBatch phase done))
      ∧ run sv (slices (length (scheduled w)) deadline 0 k0) w0 = Some w''
      ∧ instantiations w'' = instantiations w'
      ∧ instancesById w'' = instancesById w'.
Proof.
  intros N forcedTimeout w0. split; [reflexivity|]. split.
  - intros i idle w1.
    destruct (instantiateSome_spec sv cs i phase forcedTimeout idle w1)
      as (n & E & Hle & Hone & Hbefore & Hend).
    exists n. cbv zeta in *. rewrite length_drop in Hle.
    repeat split; try done. subst N. lia.
  - assert (scheduled w0 = scheduled w ++ [IdleCallback cs 0 phase forcedTimeout]) as E
      by reflexivity.
    destruct (drain_from sv (scheduled w) cs phase forcedTimeout deadline N
                0%nat 0%nat w0 eq_refl E)
      as (k & k0 & w' & w'' & Hk & Hk0 & Hkk & Hrun & Hs & Hnet & Hrun0 & Hi & Hc).
    exists k, k0, w', w''. repeat split; try done.
Qed.
End IdleDrain.

(* ===================================================================== *)
(** ** The Restored-completion signal *)
(* ===================================================================== *)

Section Signal.
Variable sv : Services.

Lemma driver_effect_refl w : driver_effect w w.
Proof.
  split; [done| |by right]. exists []. by rewrite app_nil_r.
Qed.

Lemma spawned_mono w1 w2 t :
  (∀ phase, contributionsByPhase w2 !! phase = None
            ∨ contributionsByPhase w2 !! phase = contributionsByPhase w1 !! phase) →
  spawned w2 t → spawned w1 t.
Proof.
  intros Hb [?|[?|(cs & -> & Hcs)]]; [by left | by right; left |].
  right; right. exists cs. split; [done|].
  destruct (Hb LP.Restored) as [Hn|He]; congruence.
Qed.

Lemma driver_effect_trans w1 w2 w3 :
  driver_effect w1 w2 → driver_effect w2 w3 → driver_effect w1 w3.
Proof.
  intros [S1 (l1 & E1 & F1) B1] [S2 (l2 & E2 & F2) B2]. split.
  - congruence.
  - exists (l1 ++ l2). rewrite E2, E1, app_assoc. split; [done|].
    apply Forall_app_2; [done|].
    eapply Forall_impl; [exact F2|]. intros t. by apply spawned_mono.
  - intros phase. destruct (B2 phase) as [?|E]; [by left|].
    rewrite E. apply B1.
Qed.

Lemma doInstantiateByPhase_effect phase w :
  driver_effect w (doInstantiateByPhase sv phase w).
Proof.
  destruct (doInstantiateByPhase_control sv phase w) as (_ & _ & Hs & Hb & Hl).
  split; [done| |].
  - eexists. split; [exact Hl|].
    destruct (contributionsByPhase w !! phase) as [cs|] eqn:E; [|by destruct phase].
    destruct phase; try done; apply Forall_singleton.
    + right; right. by exists cs.
    + right; left. by exists cs.
  - intros q. rewrite Hb. destruct (decide (phase = q)) as [->|Hne].
    + left. apply lookup_delete_eq.
    + right. by apply lookup_delete_ne.
Qed.

Lemma instantiateByPhase_effect phase w :
  driver_effect w (instantiateByPhase sv phase w).
Proof.
  unfold instantiateByPhase. case_match; [apply doInstantiateByPhase_effect|].
  split; [done| |by right].
  exists [WhenPhase phase]. split; [done|].
  apply Forall_singleton. left. by exists phase.
Qed.

Lemma start_effect w : driver_effect w (start sv w).
Proof.
  unfold start. simpl.
  eapply driver_effect_trans; [|apply instantiateByPhase_effect].
  eapply driver_effect_trans; [|apply instantiateByPhase_effect].
  eapply driver_effect_trans; [|apply instantiateByPhase_effect].
  eapply driver_effect_trans; [|apply instantiateByPhase_effect].
  split; [done| |by right]. exists []. by rewrite app_nil_r.
Qed.

(** What one slice does to signal, scheduled work and by-phase index. *)
Lemma instantiateSome_effect cs i phase forcedTimeout idle w :
  let w' := instantiateSome sv cs i phase forcedTimeout idle w in
  contributionsByPhase w' = contributionsByPhase w
  ∧ (scheduled w' = scheduled w
     ∨ ∃ i', scheduled w' = scheduled w ++ [IdleCallback cs i' phase forcedTimeout])
  ∧ (pendingRestoredContributions w' = pendingRestoredContributions w
     ∨ (phase = LP.Restored
        ∧ pendingRestoredContributions w' = complete (pendingRestoredContributions w))).
Proof.
  destruct (instantiateSome_spec sv cs i phase forcedTimeout idle w) as (n & E & _).
  cbv zeta in *. rewrite E. clear E.
  destruct (instantiateAll_control sv (take n (drop i cs)) phase w) as [_ Hb Hp _ Hs].
  set (X := instantiateAll sv (take n (drop i cs)) phase w) in *.
  set (r := bool_decide (1 ≤ n)%nat && timeIsUp (idle (n - 1)%nat)).
  assert (∀ Y, contributionsByPhase Y = contributionsByPhase w →
               pendingRestoredContributions Y = pendingRestoredContributions w →
               (scheduled Y = scheduled w
                ∨ ∃ i', scheduled Y = scheduled w ++ [IdleCallback cs i' phase forcedTimeout]) →
               let Y' := (if (i + n =? length cs)%nat then finishBatch phase else id) Y in
               contributionsByPhase Y' = contributionsByPhase w
               ∧ (scheduled Y' = scheduled w
                  ∨ ∃ i', scheduled Y' = scheduled w ++ [IdleCallback cs i' phase forcedTimeout])
               ∧ (pendingRestoredContributions Y' = pendingRestoredContributions w
                  ∨ (phase = LP.Restored
                     ∧ pendingRestoredContributions Y'
                       = complete (pendingRestoredContributions w)))) as Hfin.
  { intros Y HYb HYp HYs. simpl.
    destruct (i + n =? length cs)%nat; simpl; [|auto].
    unfold finishBatch. case_bool_decide; simpl; rewrite ?HYp; auto. }
  destruct r; apply Hfin; simpl; rewrite ?Hs; eauto.
Qed.

(** What one action does to signal, scheduled work and by-phase index. *)
Lemma step_effect a w w' :
  step sv a w = Some w' →
  (pendingRestoredContributions w' = pendingRestoredContributions w
   ∨ (∃ cs i forcedTimeout,
        IdleCallback cs i LP.Restored forcedTimeout ∈ scheduled w
        ∧ pendingRestoredContributions w' = complete (pendingRestoredContributions w)))
  ∧ (∀ t, t ∈ scheduled w' →
       t ∈ scheduled w
       ∨ spawned w t
       ∨ (∃ cs i i0 phase forcedTimeout,
            t = IdleCallback cs i phase forcedTimeout
            ∧ IdleCallback cs i0 phase forcedTimeout ∈ scheduled w)
       ∨ (∃ cs phase forcedTimeout,
            t = IdleCallback cs 0 phase forcedTimeout
            ∧ AwaitRestored cs phase ∈ scheduled w
            ∧ pendingRestoredContributions w = Resolved))
  ∧ (registersRestored a = false →
     contributionsByPhase w !! LP.Restored = None →
     contributionsByPhase w' !! LP.Restored = None).
Proof.
  assert (∀ w1, driver_effect w w1 →
            (pendingRestoredContributions w1 = pendingRestoredContributions w
             ∨ (∃ cs i forcedTimeout,
                  IdleCallback cs i LP.Restored forcedTimeout ∈ scheduled w
                  ∧ pendingRestoredContributions w1 = complete (pendingRestoredContributions w)))
            ∧ (∀ t, t ∈ scheduled w1 →
                 t ∈ scheduled w
                 ∨ spawned w t
                 ∨ (∃ cs i i0 phase forcedTimeout,
                      t = IdleCallback cs i phase forcedTimeout
                      ∧ IdleCallback cs i0 phase forcedTimeout ∈ scheduled w)
                 ∨ (∃ cs phase forcedTimeout,
                      t = IdleCallback cs 0 phase forcedTimeout
                      ∧ AwaitRestored cs phase ∈ scheduled w
                      ∧ pendingRestoredContributions w = Resolved))
            ∧ (contributionsByPhase w !! LP.Restored = None →
               contributionsByPhase w1 !! LP.Restored = None)) as Hdriver.
  { intros w1 [Hs (l & Hl & Hf) Hb]. split; [by left|]. split.
    - intros t. rewrite Hl, elem_of_app. intros [?|Ht]; [by left|].
      right; left. rewrite Forall_forall in Hf. by apply Hf.
    - intros Hn. destruct (Hb LP.Restored) as [?|E]; congruence. }
  assert (∀ id ctor instantiation,
            (registersRestored (Register2 id ctor instantiation) = false →
             contributionsByPhase w !! LP.Restored = None →
             contributionsByPhase (registerWorkbenchContribution2 sv id ctor instantiation w)
             !! LP.Restored = None)
            ∧ scheduled (registerWorkbenchContribution2 sv id ctor instantiation w)
              = scheduled w
            ∧ pendingRestoredContributions
                (registerWorkbenchContribution2 sv id ctor instantiation w)
              = pendingRestoredContributions w) as Hreg.
  { intros id ctor instantiation. unfold registerWorkbenchContribution2.
    destruct (instantiatesDirectly instantiation w).
    - destruct (toPhase instantiation) as [phase|]; [|done].
      by destruct (safeCreate_control sv (MkRegistration id ctor) phase w)
        as [_ -> -> _ ->].
    - destruct (keep_quiet (MkRegistration id ctor) instantiation w)
        as (_ & _ & -> & -> & _).
      split; [|done]. intros Hr Hn. unfold keepById, keepByPhase.
      destruct instantiation, id; simpl in *; repeat case_match; world_simpl;
        try done; by rewrite lookup_insert_ne. }
  destruct a as [id ctor instantiation|ctor phase|id| |phase|n idle]; simpl.
  - intros [= <-]. destruct (Hreg id ctor instantiation) as (Hb & -> & ->).
    split; [by left|]. split; [by left | done].
  - intros [= <-]. unfold registerWorkbenchContribution.
    destruct (Hreg None ctor (toInstantiation phase)) as (Hb & -> & ->).
    split; [by left|]. split; [by left|].
    intros Hr. apply Hb. by destruct phase.
  - intros [= <-].
    assert (same_control w (getWorkbenchContribution sv id w).2) as [_ -> -> _ ->].
    { unfold getWorkbenchContribution.
      repeat (case_match; simpl; try apply same_control_refl).
      all: apply (same_control_trans _ (warnEarly id w));
        [apply warnEarly_control | apply safeCreate_control]. }
    split; [by left|]. split; [by left | done].
  - intros [= <-]. destruct (Hdriver _ (start_effect w)) as (? & ? & ?). done.
  - case_match; [|done]. intros [= <-]. simpl.
    split; [by left|]. split; [by left | done].
  - destruct (scheduled w !! n) as [task|] eqn:Hn; [|done].
    assert (task ∈ scheduled w) as Hin by (by eapply list_elem_of_lookup_2).
    set (w0 := set_scheduled (delete n (scheduled w)) w).
    assert (∀ t, t ∈ scheduled w0 → t ∈ scheduled w) as Hsub.
    { intros t. apply list_elem_of_delete_inv. }
    destruct task as [phase|cs phase|cs i phase forcedTimeout]; simpl.
    + case_match; [|done]. intros [= <-].
      destruct (doInstantiateByPhase_effect phase w0) as [Hs (l & Hl & Hf) Hb].
      split; [by left|]. split.
      * intros t. rewrite Hl, elem_of_app. intros [?|Ht]; [left; by apply Hsub|].
        right; left. rewrite Forall_forall in Hf. by apply Hf.
      * intros _ Hnone. destruct (Hb LP.Restored) as [?|E]; [done|].
        by rewrite E.
    + change (pendingRestoredContributions w0) with (pendingRestoredContributions w).
      destruct (pendingRestoredContributions w) eqn:Hp; try done.
      intros [= <-]. split; [by left|]. split; [|done].
      intros t. simpl. rewrite elem_of_app, list_elem_of_singleton.
      intros [?| ->]; [left; by apply Hsub|].
      right; right; right. by eexists cs, phase, _.
    + intros [= <-].
      destruct (instantiateSome_effect cs i phase forcedTimeout idle w0)
        as (Hb & Hs & Hp).
      split; [|split].
      * destruct Hp as [?|[-> Hp]]; [by left|].
        right. by exists cs, i, forcedTimeout.
      * intros t. destruct Hs as [-> | [i' ->]]; [left; by apply Hsub|].
        rewrite elem_of_app, list_elem_of_singleton.
        intros [?| ->]; [left; by apply Hsub|].
        right; right; left. by exists cs, i', i, phase, forcedTimeout.
      * intros _. by rewrite Hb.
Qed.
End Signal.

Section Progression.
Variable sv : Services.









End Progression.

(* ===================================================================== *)
(** ** Where a registration goes *)
(* ===================================================================== *)

Section RegistrationRoutes.
Variable sv : Services.


End RegistrationRoutes.

Section SignalInvariants.
Variable sv : Services.

Lemma noRestoredWork_initial : noRestoredWork initial.
Proof. split; [apply lookup_empty|]. split; [done | apply Forall_nil_2]. Qed.

Lemma step_noRestoredWork a w w' :
  registersRestored a = false →
  step sv a w = Some w' → noRestoredWork w → noRestoredWork w'.
Proof.
  intros Ha Hstep (Hb & Hp & Hs).
  destruct (step_effect sv a w w' Hstep) as (Hsig & Hsched & Hby).
  rewrite Forall_forall in Hs.
  split; [by apply Hby|]. split.
  - destruct Hsig as [-> |(cs & i & t & Hin & _)]; [done|].
    by specialize (Hs _ Hin).
  - apply Forall_forall. intros t Ht.
    destruct (Hsched t Ht)
      as [Hin|[Hsp|[(cs & i & i0 & phase & ft & -> & Hin)|(cs & phase & ft & -> & _ & Hr)]]].
    + by apply Hs.
    + destruct Hsp as [[? ->]|[[? ->]|(cs & -> & Hcs)]]; [done|done|congruence].
    + apply (Hs _ Hin).
    + congruence.
Qed.

(** C1, the run without Restored-phase registrations: as long as no
    action registers a contribution for the Restored phase, nothing is
    pending for the phase, no idle callback of the phase exists, and the
    signal is still pending.  Dispatching the Restored phase finds no array
    under the phase and returns, so [complete] is never called. *)
Theorem whenRestored_stays_pending_without_Restored_registrations actions w :
  forallb (λ a, negb (registersRestored a)) actions = true →
  run sv actions initial = Some w →
  pendingRestoredContributions w = Pending ∧ noRestoredWork w.
Proof.
  intros Hall Hrun.
  assert (noRestoredWork w) as H; [|split; [apply H | exact H]].
  revert Hall Hrun. generalize noRestoredWork_initial. generalize initial.
  induction actions as [|a actions IH]; intros w0 H0 Hall Hrun; simpl in *.
  - by injection Hrun as <-.
  - apply andb_true_iff in Hall as [Ha Hall]. apply negb_true_iff in Ha.
    destruct (step sv a w0) as [w1|] eqn:Hstep; [|done].
    apply (IH w1); [|done|done]. by eapply step_noRestoredWork.
Qed.





(** The signal is never rejected, and once resolved it stays resolved. *)
Lemma whenRestored_never_rejects actions w :
  run sv actions initial = Some w →
  pendingRestoredContributions w ≠ Rejected
  ∧ ∀ later w', run sv later w = Some w' →
      pendingRestoredContributions w = Resolved →
      pendingRestoredContributions w' = Resolved.
Proof.
  intros Hrun. split.
  - by destruct (run_signal_settles sv _ _ _ Hrun) as [-> |[_ ->]].
  - intros later w' Hlater Hr.
    destruct (run_signal_settles sv _ _ _ Hlater) as [-> |[? _]]; congruence.
Qed.

(** X11: draining a Restored batch of any length resolves the signal. *)
Lemma restored_batch_resolves_whenRestored actions cs deadline w :
  run sv actions initial = Some w →
  ∃ k w', (k ≤ length cs + 1)%nat
    ∧ run sv (slices (length (scheduled w)) deadline 0 k)
        (doInstantiateWhenIdle cs LP.Restored w) = Some w'
    ∧ pendingRestoredContributions w' = Resolved.
Proof.
  intros Hrun.
  destruct (drain_from sv (scheduled w) cs LP.Restored 500 deadline (length cs)
              0%nat 0%nat (doInstantiateWhenIdle cs LP.Restored w) eq_refl eq_refl)
    as (k & _ & w' & _ & Hk & _ & _ & Hk' & _ & Hnet & _).
  exists k, w'. split; [done|]. split; [done|].
  destruct (whenRestored_never_rejects _ _ Hrun) as [Hnr _].
  cbv zeta in Hnet.
  set (X := instantiateAll sv (drop 0 cs) LP.Restored
              (set_scheduled (scheduled w) (doInstantiateWhenIdle cs LP.Restored w)))
    in Hnet.
  assert (pendingRestoredContributions X = pendingRestoredContributions w) as HX.
  { subst X. by destruct (instantiateAll_control sv (drop 0 cs) LP.Restored
      (set_scheduled (scheduled w) (doInstantiateWhenIdle cs LP.Restored w)))
      as [_ _ -> _ _]. }
  destruct Hnet as [-> | ->]; simpl; rewrite HX;
    by destruct (pendingRestoredContributions w).
Qed.
End SignalInvariants.

(* ===================================================================== *)
(** ** The outcomes of a lookup *)
(* ===================================================================== *)

Section LookupOutcomes.
Variable sv : Services.

Lemma get_control id w : same_control w (getWorkbenchContribution sv id w).2.
Proof.
  unfold getWorkbenchContribution.
  repeat (case_match; simpl; try apply same_control_refl).
  all: apply (same_control_trans _ (warnEarly id w));
    [apply warnEarly_control | apply safeCreate_control].
Qed.

Lemma instantiateSome_servicesSet cs i phase forcedTimeout idle w :
  servicesSet (instantiateSome sv cs i phase forcedTimeout idle w) = servicesSet w.
Proof.
  destruct (instantiateSome_spec sv cs i phase forcedTimeout idle w) as (n & E & _).
  cbv zeta in E. rewrite E.
  destruct (instantiateAll_control sv (take n (drop i cs)) phase w) as [Hs _ _ _ _].
  unfold finishBatch. repeat case_match; simpl; done.
Qed.

Lemma instantiateByPhase_servicesSet phase w :
  servicesSet (instantiateByPhase sv phase w) = servicesSet w.
Proof.
  unfold instantiateByPhase. case_match; [|done].
  by destruct (doInstantiateByPhase_control sv phase w) as (-> & _).
Qed.

(** Only [start] sets the services. *)
Lemma step_servicesSet a w w' :
  step sv a w = Some w' → servicesSet w' = servicesSet w || isStart a.
Proof.
  destruct a as [id ctor instantiation|ctor phase|id| |phase|n idle]; simpl;
    rewrite ?orb_false_r, ?orb_true_r.
  - intros [= <-]. unfold registerWorkbenchContribution2.
    destruct (instantiatesDirectly instantiation w).
    + destruct (toPhase instantiation) as [phase|]; [|done].
      apply (safeCreate_control sv).
    + apply (keep_quiet (MkRegistration id ctor) instantiation w).
  - intros [= <-]. unfold registerWorkbenchContribution, registerWorkbenchContribution2.
    destruct (instantiatesDirectly (toInstantiation phase) w).
    + destruct (toPhase (toInstantiation phase)) as [p|]; [|done].
      apply (safeCreate_control sv).
    + apply (keep_quiet (MkRegistration None ctor) (toInstantiation phase) w).
  - intros [= <-]. apply get_control.
  - intros [= <-]. unfold start. simpl.
    by rewrite !instantiateByPhase_servicesSet.
  - case_match; [|done]. by intros [= <-].
  - destruct (scheduled w !! n) as [task|]; [|done].
    destruct task as [phase|cs phase|cs i phase forcedTimeout]; simpl.
    + case_match; [|done]. intros [= <-].
      by destruct (doInstantiateByPhase_control sv phase
                     (set_scheduled (delete n (scheduled w)) w)) as (-> & _).
    + case_match; try done. by intros [= <-].
    + intros [= <-]. by rewrite instantiateSome_servicesSet.
Qed.

Lemma run_servicesSet actions w w' :
  run sv actions w = Some w' →
  servicesSet w' = servicesSet w || existsb isStart actions.
Proof.
  revert w. induction actions as [|a actions IH]; intros w; simpl.
  - intros [= <-]. by rewrite orb_false_r.
  - destruct (step sv a w) as [w1|] eqn:Hstep; [|done].
    intros Hrun. rewrite (IH _ Hrun), (step_servicesSet _ _ _ Hstep).
    by rewrite orb_assoc.
Qed.

End LookupOutcomes.

(* ===================================================================== *)
(** ** One instance per id, and registrations that share an id *)
(* ===================================================================== *)

Section Identity.
Variable sv : Services.



Lemma instantiatesDirectly_control instantiation w w' :
  servicesSet w' = servicesSet w → lifecyclePhase w' = lifecyclePhase w →
  instantiatesDirectly instantiation w' = instantiatesDirectly instantiation w.
Proof. unfold instantiatesDirectly. by intros -> ->. Qed.

Lemma register2_kept id ctor instantiation w :
  instantiatesDirectly instantiation w = false →
  registerWorkbenchContribution2 sv id ctor instantiation w
  = keepById (MkRegistration id ctor)
      (keepByPhase (MkRegistration id ctor) instantiation w).
Proof. intros H. unfold registerWorkbenchContribution2. by rewrite H. Qed.



End Identity.

(* ===================================================================== *)
(** ** Concrete runs *)
(* ===================================================================== *)

(** C1, an instance: one Eventually registration and no Restored one; the
    registry starts, the lifecycle goes through all four phases and every
    continuation runs.  The signal is pending at the end, the Eventually
    batch is still suspended on it, nothing else is scheduled, and no
    factory was called. *)
Lemma whenRestored_stays_pending_run :
  ∃ w,
    run reliable
      [Register2 (Some "e") ctorA WCI.Eventually; Start;
       Advance LP.Ready; Run 0 busy;
       Advance LP.Restored; Run 0 busy;
       Advance LP.Eventually; Run 0 busy] initial = Some w
    ∧ scheduled w = [AwaitRestored [MkRegistration (Some "e") ctorA] LP.Eventually]
    ∧ instantiations w = []
    ∧ pendingRestoredContributions w = Pending.
Proof.
  eexists. split; [vm_compute; reflexivity|].
  split; [reflexivity|]. split; [reflexivity|].
  refine (proj1 (whenRestored_stays_pending_without_Restored_registrations reliable
                   [Register2 (Some "e") ctorA WCI.Eventually; Start;
                    Advance LP.Ready; Run 0 busy;
                    Advance LP.Restored; Run 0 busy;
                    Advance LP.Eventually; Run 0 busy] _ _ _)).
  - reflexivity.
  - vm_compute; reflexivity.
Defined.








(** C8, counterexample: a batch of one registration under a deadline that
    reports no time left.  The first slice instantiates the registration and
    reschedules itself although nothing is left; the second slice
    instantiates nothing; the callback is gone only after two slices. *)
Lemma slice_reschedules_with_nothing_left :
  ∃ w1 w2,
    run reliable (slices 0 (λ _, busy) 0 1)
      (doInstantiateWhenIdle [MkRegistration (Some "r") ctorA] LP.Restored initial)
    = Some w1
    ∧ instantiations w1 = [MkRegistration (Some "r") ctorA]
    ∧ scheduled w1 = [IdleCallback [MkRegistration (Some "r") ctorA] 1 LP.Restored 500]
    ∧ run reliable (slices 0 (λ _, busy) 1 1) w1 = Some w2
    ∧ instantiations w2 = instantiations w1
    ∧ scheduled w2 = [].
Proof.
  eexists. eexists. split; [vm_compute; reflexivity|].
  split; [vm_compute; reflexivity|]. split; [vm_compute; reflexivity|].
  split; [vm_compute; reflexivity|]. split; vm_compute; reflexivity.
Qed.

(* ===================================================================== *)
(** ** Preorders closed under the registry's elementary updates *)
(* ===================================================================== *)

(** A finer version of the previous principle, for relations that look at
    the log, the timings, the by-phase index or the scheduled work: every
    operation is a composition of the elementary updates below. *)
Section Updates.
Variable sv : Services.
Variable R : World → World → Prop.
Hypothesis U_refl : ∀ w, R w w.
Hypothesis U_trans : ∀ w1 w2 w3, R w1 w2 → R w2 w3 → R w1 w3.
Hypothesis U_safeCreate : ∀ c phase w, R w (safeCreateContribution sv c phase w).
Hypothesis U_keepById : ∀ c w, R w (keepById c w).
Hypothesis U_keepByPhase : ∀ c instantiation w, R w (keepByPhase c instantiation w).
Hypothesis U_pop : ∀ phase w,
  R w (set_contributionsByPhase (delete phase (contributionsByPhase w)) w).
Hypothesis U_complete : ∀ w,
  R w (set_pendingRestoredContributions (complete (pendingRestoredContributions w)) w).
Hypothesis U_mark : ∀ m w, R w (mark m w).
Hypothesis U_warnEarly : ∀ id w, R w (warnEarly id w).
Hypothesis U_schedule : ∀ t w, R w (schedule t w).
Hypothesis U_unschedule : ∀ n w, R w (set_scheduled (delete n (scheduled w)) w).
Hypothesis U_started : ∀ w, R w (set_servicesSet true w).
Hypothesis U_advance : ∀ phase w, R w (set_lifecyclePhase phase w).

Lemma U_instantiateAll cs phase w : R w (instantiateAll sv cs phase w).
Proof.
  revert w. induction cs as [|c cs IH]; intros w; simpl; [apply U_refl|].
  eapply U_trans; [apply U_safeCreate | apply IH].
Qed.

Lemma U_finishBatch phase w : R w (finishBatch phase w).
Proof.
  unfold finishBatch. case_bool_decide.
  - eapply U_trans; [apply U_mark | apply U_complete].
  - apply U_mark.
Qed.

Lemma U_instantiateSome cs i phase forcedTimeout idle w :
  R w (instantiateSome sv cs i phase forcedTimeout idle w).
Proof.
  destruct (instantiateSome_spec sv cs i phase forcedTimeout idle w) as (n & E & _).
  cbv zeta in E. rewrite E. clear E.
  set (X := instantiateAll sv (take n (drop i cs)) phase w).
  assert (R w X) as HX by apply U_instantiateAll.
  set (Y := (if bool_decide (1 ≤ n)%nat && timeIsUp (idle (n - 1)%nat)
             then schedule (IdleCallback cs (i + n) phase forcedTimeout)
             else id) X).
  assert (R w Y) as HY.
  { subst Y. case_match; [|exact HX]. eapply U_trans; [exact HX | apply U_schedule]. }
  destruct (i + n =? length cs)%nat; [|exact HY].
  eapply U_trans; [exact HY | apply U_finishBatch].
Qed.

Lemma U_doInstantiateWhenIdle cs phase w : R w (doInstantiateWhenIdle cs phase w).
Proof.
  unfold doInstantiateWhenIdle.
  eapply U_trans; [apply U_mark | apply U_schedule].
Qed.

Lemma U_doInstantiateByPhase phase w : R w (doInstantiateByPhase sv phase w).
Proof.
  unfold doInstantiateByPhase.
  destruct (contributionsByPhase w !! phase) as [cs|]; [|apply U_refl].
  eapply U_trans; [apply (U_pop phase)|].
  destruct phase; simpl.
  1,2: eapply U_trans; [apply U_mark|];
       eapply U_trans; [apply U_instantiateAll | apply U_mark].
  - apply U_doInstantiateWhenIdle.
  - apply U_schedule.
Qed.

Lemma U_instantiateByPhase phase w : R w (instantiateByPhase sv phase w).
Proof.
  unfold instantiateByPhase.
  case_match; [apply U_doInstantiateByPhase | apply U_schedule].
Qed.

Lemma U_start w : R w (start sv w).
Proof.
  unfold start. simpl.
  eapply U_trans; [|apply U_instantiateByPhase].
  eapply U_trans; [|apply U_instantiateByPhase].
  eapply U_trans; [|apply U_instantiateByPhase].
  eapply U_trans; [|apply U_instantiateByPhase].
  apply U_started.
Qed.

Lemma U_register2 id ctor instantiation w :
  R w (registerWorkbenchContribution2 sv id ctor instantiation w).
Proof.
  unfold registerWorkbenchContribution2.
  case_match; [case_match; [apply U_safeCreate | apply U_refl]|].
  eapply U_trans; [apply U_keepByPhase | apply U_keepById].
Qed.

Lemma U_get id w : R w (getWorkbenchContribution sv id w).2.
Proof.
  unfold getWorkbenchContribution.
  repeat (case_match; simpl; try apply U_refl);
    (eapply U_trans; [apply U_warnEarly | apply U_safeCreate]).
Qed.

Lemma U_step a w w' : step sv a w = Some w' → R w w'.
Proof.
  destruct a; simpl.
  - intros [= <-]. apply U_register2.
  - intros [= <-]. apply U_register2.
  - intros [= <-]. apply U_get.
  - intros [= <-]. apply U_start.
  - case_match; [|done]. intros [= <-]. apply U_advance.
  - destruct (scheduled w !! n) as [task|]; [|done].
    intros Ht. eapply U_trans; [apply (U_unschedule n)|].
    destruct task; simpl in Ht.
    + revert Ht. case_match; [|done]. intros [= <-]. apply U_doInstantiateByPhase.
    + revert Ht. case_match; try done. intros [= <-]. apply U_doInstantiateWhenIdle.
    + injection Ht as <-. apply U_instantiateSome.
Qed.

Lemma U_run actions w w' : run sv actions w = Some w' → R w w'.
Proof.
  revert w. induction actions as [|a actions IH]; intros w; simpl.
  - intros [= <-]. apply U_refl.
  - destruct (step sv a w) as [w1|] eqn:S; [|done].
    intros Hrun. eapply U_trans; [eapply U_step, S | by apply IH].
Qed.
End Updates.

(* ===================================================================== *)
(** ** The timing log and the log of a construction attempt *)
(* ===================================================================== *)


Section Timings.
Variable sv : Services.







End Timings.

Ltac log_untouched :=
  intros; unfold keepById, keepByPhase, warnEarly in *;
  repeat case_match; world_simpl; try done; try (by eauto);
  repeat match goal with
         | H : _ ∈ _ ++ [_] |- _ =>
             apply elem_of_app in H as [H|H%list_elem_of_singleton]; [|discriminate]
         end;
  try (by eauto); try (by (apply elem_of_app; left; eauto)).

Section Logging.
Variable sv : Services.

(** What a construction attempt writes to the log: nothing when the id has
    an instance; otherwise the error when the constructor throws, followed
    by the warning when the registration has an id or the product is not
    built and the time is above the threshold of the phase. *)
Lemma safeCreate_logged c phase w :
  logged (safeCreateContribution sv c phase w)
  = logged w
    ++ (if hasInstance c w then []
        else
          let n := length (instantiations w) in
          (if createThrows sv (reg_ctor c) n
           then [ErrorUnableToCreate (displayName c)] else [])
          ++ (if (identified c || negb (isBuilt sv))
                 && (warnThreshold phase <? creationTime sv (reg_ctor c) n)
              then [WarnCreationTook (displayName c) (creationTime sv (reg_ctor c) n)]
              else [])).
Proof.
  unfold safeCreateContribution, identified, warnThreshold.
  destruct (hasInstance c w); [by rewrite app_nil_r|].
  destruct c as [[id|] c]; simpl;
    repeat case_match; world_simpl; simpl in *;
    rewrite ?app_nil_r; rewrite <- ?app_assoc; try done.
Qed.

Lemma run_failures_logged actions w w' :
  run sv actions w = Some w' →
  (∀ n r, instantiations w !! n = Some r → createThrows sv (reg_ctor r) n = true →
          ErrorUnableToCreate (displayName r) ∈ logged w) →
  ∀ n r, instantiations w' !! n = Some r → createThrows sv (reg_ctor r) n = true →
         ErrorUnableToCreate (displayName r) ∈ logged w'.
Proof.
  apply (U_run sv (λ w w',
    (∀ n r, instantiations w !! n = Some r → createThrows sv (reg_ctor r) n = true →
            ErrorUnableToCreate (displayName r) ∈ logged w) →
    ∀ n r, instantiations w' !! n = Some r → createThrows sv (reg_ctor r) n = true →
           ErrorUnableToCreate (displayName r) ∈ logged w'));
    clear; [done | | | log_untouched..].
  - intros w1 w2 w3 H12 H23 H1. apply H23, H12, H1.
  - intros c phase w Hw n r.
    rewrite safeCreate_logged, safeCreate_instantiations.
    destruct (hasInstance c w).
    { rewrite !app_nil_r. apply Hw. }
    intros Hn Ht. apply elem_of_app.
    destruct (decide (n < length (instantiations w))%nat) as [Hlt|Hge].
    + left. rewrite lookup_app_l in Hn by done. by apply (Hw n).
    + right. rewrite lookup_app_r in Hn by lia.
      destruct (n - length (instantiations w))%nat as [|m] eqn:Hm; [|done].
      injection Hn as <-. assert (n = length (instantiations w)) as -> by lia.
      cbv zeta. rewrite Ht. apply elem_of_app. left. apply list_elem_of_here.
Qed.

Lemma run_errors_from_failures actions w w' :
  run sv actions w = Some w' →
  (∀ name, ErrorUnableToCreate name ∈ logged w →
     ∃ n r, instantiations w !! n = Some r ∧ displayName r = name
            ∧ createThrows sv (reg_ctor r) n = true) →
  ∀ name, ErrorUnableToCreate name ∈ logged w' →
    ∃ n r, instantiations w' !! n = Some r ∧ displayName r = name
           ∧ createThrows sv (reg_ctor r) n = true.
Proof.
  apply (U_run sv (λ w w',
    (∀ name, ErrorUnableToCreate name ∈ logged w →
       ∃ n r, instantiations w !! n = Some r ∧ displayName r = name
              ∧ createThrows sv (reg_ctor r) n = true) →
    ∀ name, ErrorUnableToCreate name ∈ logged w' →
      ∃ n r, instantiations w' !! n = Some r ∧ displayName r = name
             ∧ createThrows sv (reg_ctor r) n = true));
    clear; [done | | | log_untouched..].
  - intros w1 w2 w3 H12 H23 H1. apply H23, H12, H1.
  - intros c phase w Hw name.
    rewrite safeCreate_logged, safeCreate_instantiations.
    intros [Hold|Hnew]%elem_of_app.
    + destruct (Hw _ Hold) as (n & r & Hn & Hr & Ht).
      exists n, r. split; [|done]. by apply lookup_app_l_Some.
    + destruct (hasInstance c w); [by apply elem_of_nil in Hnew|].
      cbv zeta in Hnew. apply elem_of_app in Hnew as [Herr|Hwarn].
      * destruct (createThrows sv (reg_ctor c) (length (instantiations w))) eqn:Ht;
          [|by apply elem_of_nil in Herr].
        apply list_elem_of_singleton in Herr as [= ->].
        exists (length (instantiations w)), c. split; [|done].
        by rewrite lookup_app_r, Nat.sub_diag.
      * case_match; [|by apply elem_of_nil in Hwarn].
        by apply list_elem_of_singleton in Hwarn.
Qed.

(** X2: no construction failure is silent, and no failure is reported that did
    not happen: in every run, each factory call that threw has its "unable
    to create" entry in the log, under the id of the registration or, without
    id, under the name of the constructor; and each such entry comes from a
    factory call that threw. *)
Theorem construction_failures_are_exactly_the_logged_errors actions w :
  run sv actions initial = Some w →
  (∀ n r, instantiations w !! n = Some r → createThrows sv (reg_ctor r) n = true →
          ErrorUnableToCreate (displayName r) ∈ logged w)
  ∧ (∀ name, ErrorUnableToCreate name ∈ logged w →
       ∃ n r, instantiations w !! n = Some r ∧ displayName r = name
              ∧ createThrows sv (reg_ctor r) n = true).
Proof.
  intros Hrun. split.
  - apply (run_failures_logged _ _ _ Hrun). intros n r Hn. simpl in Hn.
    by rewrite lookup_nil in Hn.
  - apply (run_errors_from_failures _ _ _ Hrun). by intros name ?%elem_of_nil.
Qed.
End Logging.

Section SlowCreations.
Variable sv : Services.

Lemma warnThreshold_bounds phase :
  BLOCK_BEFORE_RESTORE_WARN_THRESHOLD <= warnThreshold phase
  ∧ warnThreshold phase <= BLOCK_AFTER_RESTORE_WARN_THRESHOLD.
Proof. by destruct phase. Qed.

Lemma run_warnings_from_slow_calls actions w w' :
  run sv actions w = Some w' →
  (∀ name time, WarnCreationTook name time ∈ logged w →
     BLOCK_BEFORE_RESTORE_WARN_THRESHOLD < time
     ∧ ∃ n r, instantiations w !! n = Some r ∧ displayName r = name
              ∧ creationTime sv (reg_ctor r) n = time
              ∧ (isBuilt sv = true → is_Some (reg_id r))) →
  ∀ name time, WarnCreationTook name time ∈ logged w' →
    BLOCK_BEFORE_RESTORE_WARN_THRESHOLD < time
    ∧ ∃ n r, instantiations w' !! n = Some r ∧ displayName r = name
             ∧ creationTime sv (reg_ctor r) n = time
             ∧ (isBuilt sv = true → is_Some (reg_id r)).
Proof.
  apply (U_run sv (λ w w',
    (∀ name time, WarnCreationTook name time ∈ logged w →
       BLOCK_BEFORE_RESTORE_WARN_THRESHOLD < time
       ∧ ∃ n r, instantiations w !! n = Some r ∧ displayName r = name
                ∧ creationTime sv (reg_ctor r) n = time
                ∧ (isBuilt sv = true → is_Some (reg_id r))) →
    ∀ name time, WarnCreationTook name time ∈ logged w' →
      BLOCK_BEFORE_RESTORE_WARN_THRESHOLD < time
      ∧ ∃ n r, instantiations w' !! n = Some r ∧ displayName r = name
               ∧ creationTime sv (reg_ctor r) n = time
               ∧ (isBuilt sv = true → is_Some (reg_id r))));
    clear; [done | | | log_untouched..].
  - intros w1 w2 w3 H12 H23 H1. apply H23, H12, H1.
  - intros c phase w Hw name time.
    rewrite safeCreate_logged, safeCreate_instantiations.
    intros [Hold|Hnew]%elem_of_app.
    + destruct (Hw _ _ Hold) as (Hlt & n & r & Hn & Hr).
      split; [done|]. exists n, r. split; [|done]. by apply lookup_app_l_Some.
    + destruct (hasInstance c w); [by apply elem_of_nil in Hnew|].
      cbv zeta in Hnew. apply elem_of_app in Hnew as [Herr|Hwarn].
      { case_match; [|by apply elem_of_nil in Herr].
        by apply list_elem_of_singleton in Herr. }
      destruct ((identified c || negb (isBuilt sv))
                && (warnThreshold phase <? creationTime sv (reg_ctor c)
                                             (length (instantiations w)))) eqn:Hc;
        [|by apply elem_of_nil in Hwarn].
      apply list_elem_of_singleton in Hwarn as [= -> ->].
      apply andb_true_iff in Hc as [Hid Hslow]. apply Z.ltb_lt in Hslow.
      pose proof (warnThreshold_bounds phase) as [Hlow _].
      split; [lia|]. exists (length (instantiations w)), c.
      split; [by rewrite lookup_app_r, Nat.sub_diag|]. split; [done|]. split; [done|].
      intros Hb. rewrite Hb, orb_false_r in Hid. by apply bool_decide_eq_true in Hid.
Qed.

Lemma run_slow_calls_warned actions w w' :
  run sv actions w = Some w' →
  (∀ n r, instantiations w !! n = Some r →
     identified r || negb (isBuilt sv) = true →
     BLOCK_AFTER_RESTORE_WARN_THRESHOLD < creationTime sv (reg_ctor r) n →
     WarnCreationTook (displayName r) (creationTime sv (reg_ctor r) n) ∈ logged w) →
  ∀ n r, instantiations w' !! n = Some r →
    identified r || negb (isBuilt sv) = true →
    BLOCK_AFTER_RESTORE_WARN_THRESHOLD < creationTime sv (reg_ctor r) n →
    WarnCreationTook (displayName r) (creationTime sv (reg_ctor r) n) ∈ logged w'.
Proof.
  apply (U_run sv (λ w w',
    (∀ n r, instantiations w !! n = Some r →
       identified r || negb (isBuilt sv) = true →
       BLOCK_AFTER_RESTORE_WARN_THRESHOLD < creationTime sv (reg_ctor r) n →
       WarnCreationTook (displayName r) (creationTime sv (reg_ctor r) n) ∈ logged w) →
    ∀ n r, instantiations w' !! n = Some r →
      identified r || negb (isBuilt sv) = true →
      BLOCK_AFTER_RESTORE_WARN_THRESHOLD < creationTime sv (reg_ctor r) n →
      WarnCreationTook (displayName r) (creationTime sv (reg_ctor r) n) ∈ logged w'));
    clear; [done | | | log_untouched..].
  - intros w1 w2 w3 H12 H23 H1. apply H23, H12, H1.
  - intros c phase w Hw n r.
    rewrite safeCreate_logged, safeCreate_instantiations.
    destruct (hasInstance c w).
    { rewrite !app_nil_r. apply Hw. }
    intros Hn Hid Hslow. apply elem_of_app.
    destruct (decide (n < length (instantiations w))%nat) as [Hlt|Hge].
    + left. rewrite lookup_app_l in Hn by done. by apply (Hw n).
    + right. rewrite lookup_app_r in Hn by lia.
      destruct (n - length (instantiations w))%nat as [|m] eqn:Hm; [|done].
      injection Hn as <-. assert (n = length (instantiations w)) as -> by lia.
      cbv zeta. apply elem_of_app. right. rewrite Hid. simpl.
      pose proof (warnThreshold_bounds phase) as [_ Hup].
      rewrite (proj2 (Z.ltb_lt _ _)) by lia. apply list_elem_of_here.
Qed.

(** X3: the slow-creation warnings of every run.  Each warning in the log
    carries a time above 20, the id (or constructor name) and the measured
    time of a factory call, and in a built product that call was for a
    registration with an id.  Conversely each factory call that took more
    than 100 is warned about, when its registration has an id or the product
    is not built.  A creation that takes exactly the threshold is not
    reported. *)
Theorem slow_creations_are_warned_above_threshold actions w :
  run sv actions initial = Some w →
  (∀ name time, WarnCreationTook name time ∈ logged w →
     BLOCK_BEFORE_RESTORE_WARN_THRESHOLD < time
     ∧ ∃ n r, instantiations w !! n = Some r ∧ displayName r = name
              ∧ creationTime sv (reg_ctor r) n = time
              ∧ (isBuilt sv = true → is_Some (reg_id r)))
  ∧ (∀ n r, instantiations w !! n = Some r →
       identified r || negb (isBuilt sv) = true →
       BLOCK_AFTER_RESTORE_WARN_THRESHOLD < creationTime sv (reg_ctor r) n →
       WarnCreationTook (displayName r) (creationTime sv (reg_ctor r) n) ∈ logged w)
  ∧ (∀ c phase w0,
       hasInstance c w0 = false →
       creationTime sv (reg_ctor c) (length (instantiations w0)) = warnThreshold phase →
       ∀ name time,
         WarnCreationTook name time ∈ logged (safeCreateContribution sv c phase w0) →
         WarnCreationTook name time ∈ logged w0).
Proof.
  intros Hrun. split; [|split].
  - apply (run_warnings_from_slow_calls _ _ _ Hrun). by intros name time ?%elem_of_nil.
  - apply (run_slow_calls_warned _ _ _ Hrun). intros n r Hn. simpl in Hn.
    by rewrite lookup_nil in Hn.
  - intros c phase w0 Hh Ht name time. rewrite safeCreate_logged, Hh. cbv zeta.
    rewrite Ht, Z.ltb_irrefl, andb_false_r, app_nil_r.
    intros [?|Herr]%elem_of_app; [done|].
    case_match; [|by apply elem_of_nil in Herr].
    by apply list_elem_of_singleton in Herr.
Qed.
End SlowCreations.

(* ===================================================================== *)
(** ** Instances and the factory calls that built them *)
(* ===================================================================== *)

Section Provenance.
Variable sv : Services.



End Provenance.

(* ===================================================================== *)
(** ** Every registration of a batch is attempted *)
(* ===================================================================== *)

Section Attempts.
Variable sv : Services.

Lemma safeCreate_instance_mono id c phase w :
  is_Some (instancesById w !! id) →
  is_Some (instancesById (safeCreateContribution sv c phase w) !! id).
Proof.
  intros [x Hx]. rewrite safeCreate_instancesById.
  destruct (reg_id c) as [i|]; [|by eexists].
  repeat case_match; try (by eexists).
  destruct (decide (i = id)) as [->|Hne];
    [rewrite lookup_insert_eq | rewrite lookup_insert_ne by done]; by eexists.
Qed.

Lemma instantiateAll_instance_mono id cs phase w :
  is_Some (instancesById w !! id) →
  is_Some (instancesById (instantiateAll sv cs phase w) !! id).
Proof.
  revert w. induction cs as [|c cs IH]; intros w Hs; simpl; [done|].
  by apply IH, safeCreate_instance_mono.
Qed.

Lemma safeCreate_settled_mono id c phase w :
  settled id w → settled id (safeCreateContribution sv c phase w).
Proof.
  intros [Hi|Hl]; [left; by apply safeCreate_instance_mono|right].
  rewrite safeCreate_logged. apply elem_of_app. by left.
Qed.

Lemma instantiateAll_settled_mono id cs phase w :
  settled id w → settled id (instantiateAll sv cs phase w).
Proof.
  revert w. induction cs as [|c cs IH]; intros w Hs; simpl; [done|].
  by apply IH, safeCreate_settled_mono.
Qed.

(** After its attempt, a registration with an id is settled. *)
Lemma safeCreate_settles id c phase w :
  reg_id c = Some id → settled id (safeCreateContribution sv c phase w).
Proof.
  intros Hc. destruct (hasInstance c w) eqn:Hh.
  - left. rewrite safeCreate_cached by done.
    apply hasInstance_true in Hh as (i & Hi & Hsome). congruence.
  - destruct (createThrows sv (reg_ctor c) (length (instantiations w))) eqn:Ht.
    + right. pose proof (safeCreate_failure_logged sv c phase w Hh Ht) as Hl.
      unfold displayName in Hl. by rewrite Hc in Hl.
    + left. rewrite safeCreate_instancesById, Hc, Hh, Ht, lookup_insert_eq.
      by eexists.
Qed.

(** The loop over an array: the factory calls are a subsequence of the
    array, in its order; a registration without id is always called; and
    every registration with an id is settled afterwards, whatever the
    constructors of the others did. *)
Lemma instantiateAll_attempts cs phase w :
  ∃ l, instantiations (instantiateAll sv cs phase w) = instantiations w ++ l
       ∧ l `sublist_of` cs
       ∧ (∀ r, r ∈ cs → reg_id r = None → r ∈ l)
       ∧ (∀ r id, r ∈ cs → reg_id r = Some id →
                  settled id (instantiateAll sv cs phase w)).
Proof.
  revert w. induction cs as [|c cs IH]; intros w; simpl.
  - exists []. rewrite app_nil_r. split; [done|]. split; [done|].
    split; intros r; [|intros id]; by intros ?%elem_of_nil.
  - destruct (IH (safeCreateContribution sv c phase w)) as (l & E & Hsub & Hanon & Hset).
    rewrite E, safeCreate_instantiations, <- app_assoc.
    eexists. split; [done|]. split; [|split].
    + destruct (hasInstance c w); simpl; [by apply sublist_cons | by apply sublist_skip].
    + intros r [-> |Hr]%elem_of_cons Hnone.
      * unfold hasInstance. rewrite Hnone. simpl. apply list_elem_of_here.
      * apply elem_of_app. right. by apply Hanon.
    + intros r id [-> |Hr]%elem_of_cons Hid.
      * by apply instantiateAll_settled_mono, safeCreate_settles.
      * by apply (Hset r).
Qed.

Lemma finishBatch_logged phase w : logged (finishBatch phase w) = logged w.
Proof. unfold finishBatch. by case_bool_decide. Qed.

Lemma finishBatch_settled id phase w : settled id w → settled id (finishBatch phase w).
Proof.
  unfold settled. rewrite finishBatch_logged.
  by destruct (finishBatch_quiet phase w) as (_ & _ & ->).
Qed.

(** X5: processing the Starting or the Ready phase with a pending sequence: the
    sequence leaves the index, the factory calls are made at once and are a
    subsequence of it in registration order, only registrations whose id
    already has an instance are skipped, and every registration with an id
    ends with an instance or a logged failure: a constructor that throws
    does not keep the later registrations from being constructed. *)
Theorem inline_phase_attempts_every_registration_in_order phase cs w :
  contributionsByPhase w !! phase = Some cs →
  LP.num phase < LP.num LP.Restored →
  let w' := doInstantiateByPhase sv phase w in
  contributionsByPhase w' !! phase = None
  ∧ scheduled w' = scheduled w
  ∧ ∃ l, instantiations w' = instantiations w ++ l
         ∧ l `sublist_of` cs
         ∧ (∀ r, r ∈ cs → r ∈ l ∨ hasInstance r w' = true)
         ∧ (∀ r, r ∈ cs → reg_id r = None → r ∈ l)
         ∧ (∀ r id, r ∈ cs → reg_id r = Some id → settled id w').
Proof.
  intros Hcs Hphase w'.
  destruct (doInstantiateByPhase_control sv phase w) as (_ & _ & _ & Hb & Hs).
  fold w' in Hb, Hs. rewrite Hcs in Hs.
  split; [rewrite Hb; apply lookup_delete_eq|].
  split; [destruct phase; try done; by rewrite Hs, app_nil_r|].
  assert (∃ w0, w' = mark (DidCreateWorkbenchContributions phase)
                       (instantiateAll sv cs phase w0)
                ∧ instantiations w0 = instantiations w) as (w0 & Ew & E0).
  { subst w'. unfold doInstantiateByPhase. rewrite Hcs.
    destruct phase; try done; by eexists. }
  destruct (instantiateAll_attempts cs phase w0) as (l & E & Hsub & Hanon & Hset).
  exists l. rewrite Ew. simpl. rewrite E, E0.
  split; [done|]. split; [done|].
  assert (∀ r id, r ∈ cs → reg_id r = Some id →
            settled id (mark (DidCreateWorkbenchContributions phase)
                          (instantiateAll sv cs phase w0))) as Hset'.
  { intros r id Hr Hid. apply (Hset r id Hr Hid). }
  split; [|split; [done | exact Hset']].
  intros r Hr. destruct (reg_id r) as [id|] eqn:Hid; [|left; by apply Hanon].
  destruct (decide (r ∈ l)) as [?|Hnl]; [by left|]. right.
  (* not called: its id had an instance at its turn, and keeps it *)
  clear -Hr Hid Hnl E Hsub.
  revert w0 l E Hsub Hnl. induction cs as [|c cs IH]; intros w0 l E Hsub Hnl;
    [by apply elem_of_nil in Hr|].
  simpl in E.
  destruct (instantiateAll_attempts cs phase (safeCreateContribution sv c phase w0))
    as (l' & E' & Hsub' & _).
  rewrite E', safeCreate_instantiations, <- app_assoc in E.
  apply app_inv_head in E. subst l.
  apply elem_of_cons in Hr as [-> |Hr].
  - destruct (hasInstance c w0) eqn:Hh.
    + apply hasInstance_true in Hh as (i & Hi & Hsome).
      apply hasInstance_true. exists i. split; [done|].
      by apply (instantiateAll_instance_mono i (c :: cs)).
    + exfalso. apply Hnl. simpl. apply list_elem_of_here.
  - simpl. apply (IH Hr (safeCreateContribution sv c phase w0) l' E' Hsub').
    intros Hin. apply Hnl. apply elem_of_app. by right.
Qed.
(** X6: a batch given to the idle runner: whatever the deadlines, after at most
    [length cs + 1] callbacks the callback is gone, and by then every
    registration of the batch has been attempted: the factory calls are a
    subsequence of the batch in its order, a registration without id is
    always called, and every registration with an id has an instance or a
    logged failure.  A constructor that throws in one slice stops neither
    that slice nor the later ones. *)
Theorem idle_batch_attempts_every_registration cs phase deadline w :
  ∃ k w',
    (k ≤ length cs + 1)%nat
    ∧ run sv (slices (length (scheduled w)) deadline 0 k)
        (doInstantiateWhenIdle cs phase w) = Some w'
    ∧ scheduled w' = scheduled w
    ∧ ∃ l, instantiations w' = instantiations w ++ l
           ∧ l `sublist_of` cs
           ∧ (∀ r, r ∈ cs → reg_id r = None → r ∈ l)
           ∧ (∀ r id, r ∈ cs → reg_id r = Some id → settled id w').
Proof.
  destruct (drain_from sv (scheduled w) cs phase
              (if bool_decide (phase = LP.Eventually) then 3000 else 500)
              deadline (length cs)
              0%nat 0%nat (doInstantiateWhenIdle cs phase w) eq_refl eq_refl)
    as (k & _ & w' & _ & Hk & _ & _ & Hrun & Hsched & Hnet & _).
  exists k, w'. split; [done|]. split; [done|]. split; [done|].
  cbv zeta in Hnet. rewrite drop_0 in Hnet.
  set (w0 := set_scheduled (scheduled w) (doInstantiateWhenIdle cs phase w)) in Hnet.
  destruct (instantiateAll_attempts cs phase w0) as (l & E & Hsub & Hanon & Hset).
  exists l.
  assert (instantiations w' = instantiations (instantiateAll sv cs phase w0)) as Ei.
  { destruct Hnet as [-> | ->];
      repeat (match goal with
              | |- context [instantiations (finishBatch ?p ?x)] =>
                  destruct (finishBatch_quiet p x) as (_ & -> & _)
              end); done. }
  split; [by rewrite Ei, E|]. split; [done|]. split; [done|].
  intros r id Hr Hid. specialize (Hset r id Hr Hid).
  destruct Hnet as [-> | ->]; by repeat apply finishBatch_settled.
Qed.
End Attempts.

(* ===================================================================== *)
(** ** Before [start] *)
(* ===================================================================== *)

Section BeforeStart.
Variable sv : Services.

Lemma keep_byPhase r instantiation w phase :
  default [] (contributionsByPhase
                (keepById r (keepByPhase r instantiation w)) !! phase)
  = default [] (contributionsByPhase w !! phase)
    ++ (if bool_decide (toPhase instantiation = Some phase) then [r] else []).
Proof.
  assert (∀ w1, contributionsByPhase (keepById r w1) = contributionsByPhase w1) as ->.
  { intros w1. unfold keepById. by repeat case_match. }
  unfold keepByPhase. destruct (toPhase instantiation) as [p|].
  - simpl. destruct (decide (p = phase)) as [->|Hne].
    + by rewrite lookup_insert_eq, bool_decide_eq_true_2.
    + rewrite lookup_insert_ne, bool_decide_eq_false_2 by congruence.
      by rewrite app_nil_r.
  - by rewrite bool_decide_eq_false_2, app_nil_r.
Qed.

Lemma step_before_start a w0 w :
  step sv a w0 = Some w →
  servicesSet w = false → scheduled w0 = [] →
  servicesSet w0 = false
  ∧ instantiations w = instantiations w0
  ∧ instancesById w = instancesById w0
  ∧ scheduled w = []
  ∧ pendingRestoredContributions w = pendingRestoredContributions w0
  ∧ timingsByPhase w = timingsByPhase w0
  ∧ ∀ phase, default [] (contributionsByPhase w !! phase)
             = default [] (contributionsByPhase w0 !! phase) ++ registeredFor phase [a].
Proof.
  intros Hstep Hsv Hsched.
  pose proof (step_servicesSet sv _ _ _ Hstep) as Hs1. rewrite Hsv in Hs1.
  symmetry in Hs1. apply orb_false_elim in Hs1 as [Hs0 Hns].
  split; [done|].
  assert (∀ i, instantiatesDirectly i w0 = false) as Hdirect.
  { intros i. unfold instantiatesDirectly. rewrite Hs0. by rewrite andb_false_r. }
  destruct a as [id ctor instantiation|ctor phase|id| |phase|n idle];
    try done; simpl in Hstep.
  - injection Hstep as <-. rewrite register2_kept by done.
    destruct (keep_quiet (MkRegistration id ctor) instantiation w0)
      as (-> & -> & -> & -> & -> & _).
    repeat (split; [done|]). intros phase. rewrite keep_byPhase.
    unfold registeredFor. simpl. by case_bool_decide.
  - injection Hstep as <-. unfold registerWorkbenchContribution.
    rewrite register2_kept by done.
    destruct (keep_quiet (MkRegistration None ctor) (toInstantiation phase) w0)
      as (-> & -> & -> & -> & -> & _).
    repeat (split; [done|]). intros q. rewrite keep_byPhase.
    unfold registeredFor. simpl. by case_bool_decide.
  - injection Hstep as <-. unfold getWorkbenchContribution.
    rewrite Hs0. simpl.
    assert (∀ q, default [] (contributionsByPhase w0 !! q)
                 = default [] (contributionsByPhase w0 !! q) ++ registeredFor q [Get id])
      by (intros q; unfold registeredFor; simpl; by rewrite app_nil_r).
    by case_match.
  - case_match; [|done]. injection Hstep as <-. simpl.
    repeat (split; [done|]). intros q. unfold registeredFor. simpl.
    by rewrite app_nil_r.
  - by rewrite Hsched in Hstep.
Qed.

Lemma registeredFor_cons phase a actions :
  registeredFor phase (a :: actions)
  = registeredFor phase [a] ++ registeredFor phase actions.
Proof. unfold registeredFor. simpl. by case_match. Qed.

Lemma run_before_start actions : ∀ w0 w,
  run sv actions w0 = Some w →
  servicesSet w = false → scheduled w0 = [] →
  servicesSet w0 = false
  ∧ instantiations w = instantiations w0
  ∧ instancesById w = instancesById w0
  ∧ scheduled w = []
  ∧ pendingRestoredContributions w = pendingRestoredContributions w0
  ∧ timingsByPhase w = timingsByPhase w0
  ∧ ∀ phase, default [] (contributionsByPhase w !! phase)
             = default [] (contributionsByPhase w0 !! phase) ++ registeredFor phase actions.
Proof.
  induction actions as [|a actions IH]; intros w0 w Hrun Hsv Hsched.
  - injection Hrun as <-. repeat (split; [done|]).
    intros phase. unfold registeredFor. simpl. by rewrite app_nil_r.
  - simpl in Hrun. destruct (step sv a w0) as [w1|] eqn:Hstep; [|done].
    pose proof (run_servicesSet sv _ _ _ Hrun) as Hs1. rewrite Hsv in Hs1.
    symmetry in Hs1. apply orb_false_elim in Hs1 as [Hs1 _].
    destruct (step_before_start _ _ _ Hstep Hs1 Hsched)
      as (Hs0 & Ei & Ec & Hsch1 & Ep & Et & Eb).
    destruct (IH w1 w Hrun Hsv Hsch1) as (_ & -> & -> & -> & -> & -> & Eb').
    repeat (split; [done|]). intros phase.
    by rewrite Eb', Eb, (registeredFor_cons phase a actions), app_assoc.
Qed.

(** X7: before [start] is called nothing is constructed and nothing is
    scheduled, whatever was registered or looked up and however far the
    lifecycle has moved: no factory call, no instance, no timing, the
    signal pending; and the pending sequence of each phase is exactly the
    registrations made for that phase, in registration order. *)
Theorem before_start_registrations_are_only_stored actions w :
  run sv actions initial = Some w →
  servicesSet w = false →
  instantiations w = []
  ∧ instancesById w = ∅
  ∧ scheduled w = []
  ∧ pendingRestoredContributions w = Pending
  ∧ timingsByPhase w = ∅
  ∧ ∀ phase, default [] (contributionsByPhase w !! phase) = registeredFor phase actions.
Proof.
  intros Hrun Hsv.
  destruct (run_before_start actions initial w Hrun Hsv eq_refl)
    as (_ & -> & -> & -> & -> & -> & Eb).
  repeat (split; [done|]). intros phase. by rewrite Eb.
Qed.
End BeforeStart.

(* ===================================================================== *)
(** ** Pending sequences and their continuations *)
(* ===================================================================== *)

Section Continuations.
Variable sv : Services.

Lemma elem_of_delete_other {A} (l : list A) n t t' :
  l !! n = Some t' → t ≠ t' → t ∈ l → t ∈ delete n l.
Proof.
  intros Hn Hne [i Hi]%list_elem_of_lookup_1.
  destruct (decide (i < n)%nat) as [Hlt|Hge].
  - apply (list_elem_of_lookup_2 _ i). by rewrite list_lookup_delete_lt.
  - assert (i ≠ n) by congruence.
    apply (list_elem_of_lookup_2 _ (i - 1)).
    rewrite list_lookup_delete_ge by lia.
    by replace (S (i - 1)) with i by lia.
Qed.

Lemma continuations_frame w w' :
  (servicesSet w' = true → servicesSet w = true) →
  (servicesSet w' = true →
   ∀ q, LP.num (lifecyclePhase w') < LP.num q ∨ is_Some (contributionsByPhase w' !! q) →
        (LP.num (lifecyclePhase w) < LP.num q ∨ is_Some (contributionsByPhase w !! q))
        ∧ (WhenPhase q ∈ scheduled w → WhenPhase q ∈ scheduled w')) →
  continuationsScheduled w → continuationsScheduled w'.
Proof.
  intros Hs Hq Hw Hs' q Hpre. destruct (Hq Hs' q Hpre) as [Hpre0 Hin].
  by apply Hin, Hw; [apply Hs|].
Qed.

Lemma continuations_control w w' :
  same_control w w' → continuationsScheduled w → continuationsScheduled w'.
Proof.
  intros [Hs Hb _ Hl Hsch]. apply continuations_frame; [by rewrite Hs|].
  intros _ q. by rewrite Hb, Hl, Hsch.
Qed.

Lemma instantiateSome_lifecyclePhase cs i phase forcedTimeout idle w :
  lifecyclePhase (instantiateSome sv cs i phase forcedTimeout idle w) = lifecyclePhase w.
Proof.
  destruct (instantiateSome_spec sv cs i phase forcedTimeout idle w) as (n & E & _).
  cbv zeta in E. rewrite E.
  destruct (instantiateAll_control sv (take n (drop i cs)) phase w) as [_ _ _ Hl _].
  unfold finishBatch. repeat case_match; simpl; done.
Qed.

Lemma instantiateByPhase_lifecyclePhase phase w :
  lifecyclePhase (instantiateByPhase sv phase w) = lifecyclePhase w.
Proof.
  unfold instantiateByPhase. case_match; [|done].
  by destruct (doInstantiateByPhase_control sv phase w) as (_ & -> & _).
Qed.

Lemma toPhase_num instantiation phase :
  toPhase instantiation = Some phase → LP.num phase = WCI.num instantiation.
Proof. destruct instantiation; by intros [= <-]. Qed.

(** Dispatching a list of phases: each phase already reached has no
    pending sequence afterwards, and each phase ahead has its continuation
    scheduled. *)
Lemma dispatch_phases phases : ∀ w,
  let w' := foldl (λ w phase, instantiateByPhase sv phase w) w phases in
  lifecyclePhase w' = lifecyclePhase w
  ∧ servicesSet w' = servicesSet w
  ∧ (∀ t, t ∈ scheduled w → t ∈ scheduled w')
  ∧ (∀ q, contributionsByPhase w !! q = None → contributionsByPhase w' !! q = None)
  ∧ ∀ q, q ∈ phases →
      if LP.num q <=? LP.num (lifecyclePhase w)
      then contributionsByPhase w' !! q = None
      else WhenPhase q ∈ scheduled w'.
Proof.
  induction phases as [|p phases IH]; intros w; simpl.
  - repeat (split; [done|]). by intros q ?%elem_of_nil.
  - destruct (IH (instantiateByPhase sv p w)) as (Hl & Hs & Hsch & Hb & Hq).
    cbv zeta in *.
    pose proof (instantiateByPhase_lifecyclePhase p w) as Hl1.
    pose proof (instantiateByPhase_servicesSet sv p w) as Hs1.
    destruct (instantiateByPhase_effect sv p w) as [_ (l & El & _) Hb1].
    split; [by rewrite Hl|]. split; [by rewrite Hs|].
    split; [|split].
    + intros t Ht. apply Hsch. rewrite El. apply elem_of_app. by left.
    + intros q Hnone. apply Hb. destruct (Hb1 q) as [?| ->]; done.
    + intros q [-> |Hin]%elem_of_cons.
      * unfold instantiateByPhase in *.
        destruct (LP.num p <=? LP.num (lifecyclePhase w)) eqn:Hle.
        -- apply Hb.
           destruct (doInstantiateByPhase_control sv p w) as (_ & _ & _ & -> & _).
           apply lookup_delete_eq.
        -- apply Hsch. simpl. apply elem_of_app. right. apply list_elem_of_here.
      * specialize (Hq q Hin). by rewrite Hl1 in Hq.
Qed.

Lemma start_continuations w : continuationsScheduled (start sv w).
Proof.
  unfold start.
  destruct (dispatch_phases [LP.Starting; LP.Ready; LP.Restored; LP.Eventually]
              (set_servicesSet true w)) as (Hl & _ & _ & _ & Hq).
  cbv zeta in *. intros _ q Hpre.
  assert (q ∈ [LP.Starting; LP.Ready; LP.Restored; LP.Eventually]) as Hin
    by (clear; destruct q; set_solver).
  specialize (Hq q Hin). rewrite Hl in Hpre.
  destruct (LP.num q <=? LP.num (lifecyclePhase (set_servicesSet true w))) eqn:Hle;
    [|done].
  apply Z.leb_le in Hle. rewrite Hq in Hpre.
  destruct Hpre as [?|[? ?]]; [lia|done].
Qed.

Lemma keep_byPhase_lookup r instantiation w q :
  is_Some (contributionsByPhase (keepById r (keepByPhase r instantiation w)) !! q) →
  is_Some (contributionsByPhase w !! q) ∨ toPhase instantiation = Some q.
Proof.
  assert (∀ w1, contributionsByPhase (keepById r w1) = contributionsByPhase w1) as ->.
  { intros w1. unfold keepById. by repeat case_match. }
  unfold keepByPhase. destruct (toPhase instantiation) as [p|]; [|by left].
  simpl. destruct (decide (p = q)) as [->|Hne]; [by right|].
  rewrite lookup_insert_ne by done. by left.
Qed.

Lemma register2_continuations id ctor instantiation w :
  continuationsScheduled w →
  continuationsScheduled (registerWorkbenchContribution2 sv id ctor instantiation w).
Proof.
  unfold registerWorkbenchContribution2.
  destruct (instantiatesDirectly instantiation w) eqn:Hd.
  - destruct (toPhase instantiation) as [phase|]; [|done].
    apply continuations_control, safeCreate_control.
  - destruct (keep_quiet (MkRegistration id ctor) instantiation w)
      as (_ & _ & Hsch & _ & _ & Hs & Hl).
    cbv zeta in *. apply continuations_frame; [by rewrite Hs|].
    rewrite Hs, Hl, Hsch. intros Hsv q Hpre. split; [|done].
    destruct Hpre as [?|Hsome]; [by left|].
    apply keep_byPhase_lookup in Hsome as [?|Hto]; [by right|]. left.
    apply not_true_iff_false in Hd. rewrite instantiatesDirectly_true in Hd.
    rewrite (toPhase_num _ _ Hto).
    destruct (decide (WCI.num instantiation <= LP.num (lifecyclePhase w)));
      [|lia].
    exfalso. apply Hd. split; [done|]. split; [done|].
    intros ->. discriminate Hto.
Qed.

Lemma step_continuations a w w' :
  step sv a w = Some w' → continuationsScheduled w → continuationsScheduled w'.
Proof.
  destruct a as [id ctor instantiation|ctor phase|id| |phase|n idle]; simpl.
  - intros [= <-]. apply register2_continuations.
  - intros [= <-]. apply register2_continuations.
  - intros [= <-]. apply continuations_control, get_control.
  - intros [= <-] _. apply start_continuations.
  - case_match; [|done]. intros [= <-]. apply continuations_frame; [done|].
    simpl. intros _ q Hpre. split; [|done]. destruct Hpre; [left; lia | by right].
  - destruct (scheduled w !! n) as [task|] eqn:Hn; [|done].
    set (w1 := set_scheduled (delete n (scheduled w)) w).
    destruct task as [p|cs phase|cs i phase forcedTimeout]; simpl.
    + destruct (LP.num p <=? LP.num (lifecyclePhase w)) eqn:Hle; [|done].
      apply Z.leb_le in Hle. intros [= <-].
      destruct (doInstantiateByPhase_control sv p w1) as (Hs & Hl & _ & Hb & Hsch).
      cbv zeta in *. apply continuations_frame; [by rewrite Hs|].
      rewrite Hl, Hb, Hsch. simpl. intros _ q Hpre.
      assert (q ≠ p) as Hne.
      { intros ->. rewrite lookup_delete_eq in Hpre.
        destruct Hpre as [?|[? ?]]; [lia|done]. }
      rewrite lookup_delete_ne in Hpre by done. split; [done|].
      intros Hin. apply elem_of_app. left.
      apply (elem_of_delete_other _ _ _ _ Hn); [congruence|done].
    + destruct (pendingRestoredContributions w) eqn:Hp; try done.
      intros [= <-]. apply continuations_frame; [done|]. simpl.
      intros _ q Hpre. split; [done|].
      intros Hin. apply elem_of_app. left.
      by apply (elem_of_delete_other _ _ _ _ Hn).
    + intros [= <-].
      destruct (instantiateSome_effect sv cs i phase forcedTimeout idle w1)
        as (Hb & Hsch & _).
      cbv zeta in *. apply continuations_frame.
      * by rewrite instantiateSome_servicesSet.
      * rewrite instantiateSome_lifecyclePhase, Hb. simpl.
        intros _ q Hpre. split; [done|]. intros Hin.
        assert (WhenPhase q ∈ scheduled w1) as Hin1
          by (by apply (elem_of_delete_other _ _ _ _ Hn)).
        destruct Hsch as [-> |(i' & ->)]; [done|].
        apply elem_of_app. by left.
Qed.

Lemma run_continuations actions : ∀ w w',
  run sv actions w = Some w' → continuationsScheduled w → continuationsScheduled w'.
Proof.
  induction actions as [|a actions IH]; intros w w'; simpl.
  - by intros [= <-].
  - destruct (step sv a w) as [w1|] eqn:Hstep; [|done].
    intros Hrun Hw. apply (IH _ _ Hrun). by apply (step_continuations a w).
Qed.

(** X8: no pending sequence is stranded.  In a registry that has been started,
    every phase that is still ahead, and every phase that holds a pending
    sequence, has its continuation [WhenPhase] among the scheduled work.
    When the phase has been reached, that continuation can run, and
    running it takes the sequence out of the index and leaves the
    continuations of the other phases in place. *)
Theorem pending_sequences_have_a_continuation actions w :
  run sv actions initial = Some w →
  servicesSet w = true →
  ∀ phase,
    LP.num (lifecyclePhase w) < LP.num phase
    ∨ is_Some (contributionsByPhase w !! phase) →
    ∃ n, scheduled w !! n = Some (WhenPhase phase)
      ∧ (LP.num phase <= LP.num (lifecyclePhase w) →
         ∀ idle, ∃ w', step sv (Run n idle) w = Some w'
                       ∧ contributionsByPhase w' !! phase = None
                       ∧ continuationsScheduled w').
Proof.
  intros Hrun Hsv phase Hpre.
  assert (continuationsScheduled w) as Hw.
  { apply (run_continuations _ _ _ Hrun). by intros [=]. }
  destruct (list_elem_of_lookup_1 _ _ (Hw Hsv phase Hpre)) as [n Hn].
  exists n. split; [done|]. intros Hle idle.
  assert (step sv (Run n idle) w
          = Some (doInstantiateByPhase sv phase
                    (set_scheduled (delete n (scheduled w)) w))) as Hstep.
  { simpl. rewrite Hn. simpl. by apply Z.leb_le in Hle as ->. }
  eexists. split; [exact Hstep|]. split.
  - destruct (doInstantiateByPhase_control sv phase
               (set_scheduled (delete n (scheduled w)) w)) as (_ & _ & _ & -> & _).
    apply lookup_delete_eq.
  - by apply (step_continuations _ _ _ Hstep).
Qed.
End Continuations.

(* ===================================================================== *)
(** ** The registration of the local history timeline *)
(* ===================================================================== *)

Section LocalHistory.
Variable sv : Services.

Lemma instantiateAll_other_ids id cs phase w :
  (∀ r, r ∈ cs → reg_id r ≠ Some id) →
  instancesById (instantiateAll sv cs phase w) !! id = instancesById w !! id.
Proof.
  revert w. induction cs as [|c cs IH]; intros w Hcs; simpl; [done|].
  rewrite IH by (intros r Hr; apply Hcs; by right).
  rewrite safeCreate_instancesById.
  assert (reg_id c ≠ Some id) as Hc by (apply Hcs; by left).
  destruct (reg_id c) as [i|]; [|done].
  repeat case_match; try done.
  rewrite lookup_insert_ne; [done|congruence].
Qed.

(** The Restored and the Eventually phase are never constructed within the
    dispatch itself. *)
Lemma instantiateByPhase_deferred phase w :
  LP.num LP.Restored <= LP.num phase →
  let w' := instantiateByPhase sv phase w in
  instantiations w' = instantiations w
  ∧ instancesById w' = instancesById w
  ∧ logged w' = logged w
  ∧ (∀ q, q ≠ phase → contributionsByPhase w' !! q = contributionsByPhase w !! q).
Proof.
  intros Hphase. unfold instantiateByPhase, doInstantiateByPhase, doInstantiateWhenIdle.
  destruct phase; simpl in Hphase; try lia;
    repeat case_match; simpl; repeat (split; [done|]); intros q Hq;
    try done; by rewrite lookup_delete_ne.
Qed.

Lemma dispatch_Starting w :
  instantiateByPhase sv LP.Starting w = doInstantiateByPhase sv LP.Starting w.
Proof. unfold instantiateByPhase. by destruct (lifecyclePhase w). Qed.

(** X12: the one registration of localHistory.contribution.ts, made while the
    module is loaded, before [start]: [LocalHistoryTimeline] under its id,
    with [BlockRestore], and no registration for a phase has used the id
    before.  The registration itself constructs nothing: it appends the
    contribution to the pending sequence of the Ready phase.  If [start] is
    called with the Ready phase reached, [start] itself hands the
    contribution to the factory, after the earlier registrations for
    Starting and Ready, and the instance is kept under the id unless the
    constructor throws, in which case the failure is logged.  If [start] is
    called in the Starting phase, the contribution is not constructed by
    [start]: it stays in the pending sequence of Ready, whose continuation
    is scheduled. *)
Theorem localHistoryTimeline_is_created_with_the_Ready_phase ID before w0 :
  run sv before initial = Some w0 →
  servicesSet w0 = false →
  (∀ phase r, r ∈ registeredFor phase before → reg_id r ≠ Some ID) →
  let timeline := MkRegistration (Some ID) LocalHistoryTimeline in
  let w1 := registerLocalHistoryTimeline sv ID w0 in
  let w2 := start sv w1 in
  (instantiations w1 = []
   ∧ contributionsByPhase w1 !! LP.Ready
     = Some (registeredFor LP.Ready before ++ [timeline]))
  ∧ (LP.num LP.Ready <= LP.num (lifecyclePhase w0) →
     ∃ n, instantiations w2 !! n = Some timeline
          ∧ (n ≤ length (registeredFor LP.Starting before)
                 + length (registeredFor LP.Ready before))%nat
          ∧ contributionsByPhase w2 !! LP.Ready = None
          ∧ (if createThrows sv LocalHistoryTimeline n
             then ErrorUnableToCreate ID ∈ logged w2 ∧ instancesById w2 !! ID = None
             else instancesById w2 !! ID = Some (MkContribution LocalHistoryTimeline n)))
  ∧ (lifecyclePhase w0 = LP.Starting →
     ¬ (timeline ∈ instantiations w2)
     ∧ instancesById w2 !! ID = None
     ∧ contributionsByPhase w2 !! LP.Ready
       = Some (registeredFor LP.Ready before ++ [timeline])
     ∧ WhenPhase LP.Ready ∈ scheduled w2).
Proof.
  intros Hrun Hsv Hfresh timeline w1 w2.
  destruct (run_before_start sv before initial w0 Hrun Hsv eq_refl)
    as (_ & Ei & Ec & _ & _ & _ & Eb).
  simpl in Ei, Ec.
  assert (∀ phase, default [] (contributionsByPhase w0 !! phase)
                   = registeredFor phase before) as Eb0 by (intros q; by rewrite Eb).
  clear Eb.
  (* the registration *)
  assert (w1 = keepById timeline (keepByPhase timeline WCI.BlockRestore w0)) as E1.
  { subst w1. unfold registerLocalHistoryTimeline. apply register2_kept.
    unfold instantiatesDirectly. by rewrite Hsv. }
  destruct (keep_quiet timeline WCI.BlockRestore w0) as (Ki & Kc & _ & _ & _ & _ & Kl).
  cbv zeta in Ki, Kc, Kl. rewrite <- E1 in Ki, Kc, Kl.
  assert (contributionsByPhase w1
          = <[LP.Ready := registeredFor LP.Ready before ++ [timeline]]>
              (contributionsByPhase w0)) as Kb.
  { rewrite E1. unfold keepById, keepByPhase. simpl. rewrite <- Eb0.
    by repeat case_match. }
  assert (contributionsByPhase w1 !! LP.Ready
          = Some (registeredFor LP.Ready before ++ [timeline])) as F3
    by (by rewrite Kb, lookup_insert_eq).
  split; [split; [by rewrite Ki | done]|].
  (* the Starting phase, processed by [start] in every case *)
  set (wS := instantiateByPhase sv LP.Starting (set_servicesSet true w1)).
  assert (instancesById wS !! ID = None
          ∧ contributionsByPhase wS !! LP.Ready
            = Some (registeredFor LP.Ready before ++ [timeline])
          ∧ lifecyclePhase wS = lifecyclePhase w0
          ∧ (∀ r, r ∈ instantiations wS → reg_id r ≠ Some ID)
          ∧ (length (instantiations wS) ≤ length (registeredFor LP.Starting before))%nat)
    as (A1 & A2 & A3 & A4 & A5).
  { subst wS. rewrite dispatch_Starting.
    destruct (doInstantiateByPhase_control sv LP.Starting (set_servicesSet true w1))
      as (_ & Hl & _ & Hb & _). cbv zeta in Hl, Hb.
    split; [|split; [|split; [by rewrite Hl|]]].
    - unfold doInstantiateByPhase. simpl.
      destruct (contributionsByPhase w1 !! LP.Starting) as [cs|] eqn:EcS; simpl.
      + rewrite instantiateAll_other_ids; [simpl; by rewrite Kc, Ec|].
        intros r Hr. apply (Hfresh LP.Starting). rewrite <- Eb0.
        rewrite Kb, lookup_insert_ne in EcS by done. by rewrite EcS.
      + by rewrite Kc, Ec.
    - rewrite Hb. simpl. by rewrite lookup_delete_ne.
    - unfold doInstantiateByPhase. simpl.
      destruct (contributionsByPhase w1 !! LP.Starting) as [cs|] eqn:EcS; simpl.
      + assert (cs = registeredFor LP.Starting before) as ->.
        { rewrite <- Eb0. rewrite Kb, lookup_insert_ne in EcS by done.
          by rewrite EcS. }
        match goal with
        | |- context [instantiateAll sv ?cs LP.Starting ?x] =>
            destruct (instantiateAll_attempts sv cs LP.Starting x)
              as (l & -> & Hsub & _)
        end.
        simpl. rewrite Ki, Ei. simpl.
        split; [|by apply sublist_length].
        intros r Hr. apply (Hfresh LP.Starting).
        by apply (elem_of_sublist _ _ _ Hr).
      + rewrite Ki, Ei. split; [by intros r ?%elem_of_nil | simpl; lia]. }
  assert (w2 = instantiateByPhase sv LP.Eventually
                 (instantiateByPhase sv LP.Restored
                    (instantiateByPhase sv LP.Ready wS))) as E2 by done.
  set (wR := instantiateByPhase sv LP.Ready wS) in E2.
  destruct (instantiateByPhase_deferred LP.Restored wR) as (Di & Dc & Dl & Db);
    [done|].
  destruct (instantiateByPhase_deferred LP.Eventually
              (instantiateByPhase sv LP.Restored wR)) as (Di' & Dc' & Dl' & Db');
    [done|].
  cbv zeta in Di, Dc, Dl, Db, Di', Dc', Dl', Db'.
  rewrite Di in Di'. rewrite Dc in Dc'. rewrite Dl in Dl'.
  specialize (Db' LP.Ready ltac:(done)). rewrite (Db LP.Ready) in Db' by done.
  rewrite <- E2 in Di', Dc', Dl', Db'.
  rewrite Di', Dc', Dl', Db'. clear Di Dc Dl Db Di' Dc' Dl' Db' E2.
  split.
  - (* Ready reached: constructed within [start] *)
    intros Hready.
    assert (wR = doInstantiateByPhase sv LP.Ready wS) as ER.
    { subst wR. unfold instantiateByPhase. rewrite A3.
      by apply Z.leb_le in Hready as ->. }
    destruct (doInstantiateByPhase_control sv LP.Ready wS) as (_ & _ & _ & Hb & _).
    cbv zeta in Hb. rewrite <- ER in Hb.
    unfold doInstantiateByPhase in ER. rewrite A2 in ER.
    rewrite instantiateAll_app in ER. simpl in ER.
    set (wb := mark (WillCreateWorkbenchContributions LP.Ready)
                 (set_contributionsByPhase
                    (delete LP.Ready (contributionsByPhase wS)) wS)) in ER.
    set (Y := instantiateAll sv (registeredFor LP.Ready before) LP.Ready wb) in ER.
    assert (instancesById Y !! ID = None) as HY.
    { subst Y. rewrite instantiateAll_other_ids by apply (Hfresh LP.Ready). done. }
    assert (hasInstance timeline Y = false) as Hh.
    { apply not_true_iff_false. intros (i & [= <-] & Hsome)%hasInstance_true.
      rewrite HY in Hsome. by destruct Hsome. }
    destruct (instantiateAll_attempts sv (registeredFor LP.Ready before) LP.Ready wb)
      as (l & El & Hsub & _).
    fold Y in El. simpl in El.
    exists (length (instantiations Y)).
    split; [rewrite ER; simpl; rewrite safeCreate_instantiations, Hh;
            by apply list_lookup_middle|].
    split; [rewrite El, length_app; apply sublist_length in Hsub; lia|].
    split; [rewrite Hb; apply lookup_delete_eq|].
    rewrite ER. simpl.
    destruct (createThrows sv LocalHistoryTimeline (length (instantiations Y))) eqn:Ht.
    + split.
      * by apply (safeCreate_failure_logged sv timeline LP.Ready Y Hh Ht).
      * rewrite safeCreate_instancesById, Hh. simpl. by rewrite Ht.
    + rewrite safeCreate_instancesById, Hh. simpl. by rewrite Ht, lookup_insert_eq.
  - (* still Starting: left to the continuation of Ready *)
    intros Hstarting.
    assert (wR = schedule (WhenPhase LP.Ready) wS) as ER.
    { subst wR. unfold instantiateByPhase. by rewrite A3, Hstarting. }
    rewrite ER. simpl.
    split; [intros Hin; by apply (A4 timeline Hin)|].
    split; [done|]. split; [done|].
    destruct (dispatch_phases sv [LP.Starting; LP.Ready; LP.Restored; LP.Eventually]
                (set_servicesSet true w1)) as (_ & _ & _ & _ & Hq).
    cbv zeta in Hq. specialize (Hq LP.Ready). simpl in Hq.
    rewrite Kl, Hstarting in Hq. simpl in Hq. apply Hq. set_solver.
Qed.
End LocalHistory.

(* ===================================================================== *)
(** ** Lookups before the Restored phase *)
(* ===================================================================== *)

(** As [Updates], for relations that look at the order of the lifecycle
    phases or at what a lookup does as a whole: the lifecycle moves forward
    only, and a lookup is one update, in a registry whose by-id index is
    keyed. *)
Section LookupUpdates.
Variable sv : Services.
Variable R : World → World → Prop.
Hypothesis V_refl : ∀ w, R w w.
Hypothesis V_trans : ∀ w1 w2 w3, R w1 w2 → R w2 w3 → R w1 w3.
Hypothesis V_safeCreate : ∀ c phase w, R w (safeCreateContribution sv c phase w).
Hypothesis V_keepById : ∀ c w, R w (keepById c w).
Hypothesis V_keepByPhase : ∀ c instantiation w, R w (keepByPhase c instantiation w).
Hypothesis V_pop : ∀ phase w,
  R w (set_contributionsByPhase (delete phase (contributionsByPhase w)) w).
Hypothesis V_complete : ∀ w,
  R w (set_pendingRestoredContributions (complete (pendingRestoredContributions w)) w).
Hypothesis V_mark : ∀ m w, R w (mark m w).
Hypothesis V_schedule : ∀ t w, R w (schedule t w).
Hypothesis V_unschedule : ∀ n w, R w (set_scheduled (delete n (scheduled w)) w).
Hypothesis V_started : ∀ w, R w (set_servicesSet true w).
Hypothesis V_advance : ∀ phase w,
  LP.num (lifecyclePhase w) < LP.num phase → R w (set_lifecyclePhase phase w).
Hypothesis V_get : ∀ id w, byId_keyed w → R w (getWorkbenchContribution sv id w).2.

Lemma V_step a w w' : byId_keyed w → step sv a w = Some w' → R w w'.
Proof.
  intros Hk. destruct a; simpl.
  - intros [= <-]. apply (U_register2 sv R); auto.
  - intros [= <-]. apply (U_register2 sv R); auto.
  - intros [= <-]. by apply V_get.
  - intros [= <-]. apply (U_start sv R); auto.
  - case_match eqn:Hlt; [|done]. intros [= <-]. apply V_advance. by apply Z.ltb_lt.
  - destruct (scheduled w !! n) as [task|]; [|done].
    intros Ht. eapply V_trans; [apply (V_unschedule n)|].
    destruct task; simpl in Ht.
    + revert Ht. case_match; [|done]. intros [= <-].
      apply (U_doInstantiateByPhase sv R); auto.
    + revert Ht. case_match; try done. intros [= <-].
      apply (U_doInstantiateWhenIdle R); auto.
    + injection Ht as <-. apply (U_instantiateSome sv R); auto.
Qed.

Lemma V_run actions : ∀ w w',
  byId_keyed w → run sv actions w = Some w' → R w w'.
Proof.
  induction actions as [|a actions IH]; intros w w' Hk; simpl.
  - intros [= <-]. apply V_refl.
  - destruct (step sv a w) as [w1|] eqn:S; [|done].
    intros Hrun. eapply V_trans; [by eapply V_step|].
    apply IH; [|done].
    apply (run_byId_keyed sv [a] w w1); [|done]. simpl. by rewrite S.
Qed.
End LookupUpdates.

Ltac warnings_untouched :=
  intros; unfold keepById, keepByPhase, earlyWarnings, calledIds in *;
  repeat case_match; world_simpl; rewrite ?omap_app; simpl; rewrite ?app_nil_r;
  try done; try (by eauto); try (split; [simpl in *; lia | done]).

Section EarlyLookups.
Variable sv : Services.

Lemma safeCreate_earlyWarnings c phase w :
  earlyWarnings (safeCreateContribution sv c phase w) = earlyWarnings w.
Proof.
  unfold earlyWarnings. rewrite safeCreate_logged.
  destruct (hasInstance c w); [by rewrite app_nil_r|]. cbv zeta.
  rewrite !omap_app.
  destruct (createThrows sv (reg_ctor c) (length (instantiations w)));
    destruct ((identified c || negb (isBuilt sv))
              && (warnThreshold phase
                  <? creationTime sv (reg_ctor c) (length (instantiations w))));
    simpl; by rewrite ?app_nil_r.
Qed.

Lemma safeCreate_calledIds c phase w :
  calledIds (safeCreateContribution sv c phase w)
  = calledIds w ++ (if hasInstance c w then [] else from_option (λ i, [i]) [] (reg_id c)).
Proof.
  unfold calledIds. rewrite safeCreate_instantiations, omap_app.
  destruct (hasInstance c w); [done|]. simpl. by destruct (reg_id c).
Qed.

(** What a lookup adds to the warnings and to the calls. *)
Lemma get_earlyWarnings id w :
  byId_keyed w →
  let w' := (getWorkbenchContribution sv id w).2 in
  (w' = w
   ∨ (earlyWarnings w'
      = earlyWarnings w
        ++ (if LP.num (lifecyclePhase w) <? LP.num LP.Restored then [id] else [])
      ∧ calledIds w' = calledIds w ++ [id]))
  ∧ lifecyclePhase w' = lifecyclePhase w.
Proof.
  intros Hk w'. split; [|by destruct (get_control sv id w)].
  subst w'. unfold getWorkbenchContribution.
  destruct (instancesById w !! id) as [instance|] eqn:Hi; [by left|].
  destruct (servicesSet w); simpl; [|by left].
  destruct (contributionsById w !! id) as [c|] eqn:Hc; [|by left].
  right.
  cbv zeta.
  set (w1 := safeCreateContribution sv c (lifecyclePhase (warnEarly id w))
               (warnEarly id w)).
  enough (earlyWarnings w1
          = earlyWarnings w
            ++ (if LP.num (lifecyclePhase w) <? LP.num LP.Restored then [id] else [])
          ∧ calledIds w1 = calledIds w ++ [id])
    by (by destruct (instancesById w1 !! id)).
  subst w1.
  rewrite safeCreate_earlyWarnings, safeCreate_calledIds.
  assert (hasInstance c (warnEarly id w) = false) as ->.
  { apply not_true_iff_false. intros (i & Hci & Hsome)%hasInstance_true.
    rewrite (Hk _ _ Hc) in Hci. injection Hci as <-.
    destruct (warnEarly_data id w) as [_ E _ _]. rewrite E, Hi in Hsome.
    by destruct Hsome. }
  rewrite (Hk _ _ Hc). simpl.
  unfold warnEarly, earlyWarnings, calledIds.
  change (LP.num LP.Restored) with 3.
  destruct (LP.num (lifecyclePhase w) <? 3); simpl; by rewrite ?omap_app, ?app_nil_r.
Qed.

Lemma run_earlyWarnings_called actions w w' :
  byId_keyed w → run sv actions w = Some w' →
  earlyWarnings w `sublist_of` calledIds w →
  earlyWarnings w' `sublist_of` calledIds w'.
Proof.
  apply (V_run sv (λ w w',
    earlyWarnings w `sublist_of` calledIds w →
    earlyWarnings w' `sublist_of` calledIds w')); clear;
    [done | | | warnings_untouched.. | ].
  - intros w1 w2 w3 H12 H23 H1. apply H23, H12, H1.
  - intros c phase w Hw. rewrite safeCreate_earlyWarnings, safeCreate_calledIds.
    by apply sublist_inserts_r.
  - intros id w Hk Hw.
    destruct (get_earlyWarnings id w Hk) as [[-> |[-> ->]] _]; [done|].
    apply sublist_app; [done|]. case_match; [done|]. apply sublist_nil_l.
Qed.

Lemma run_lifecycle_forward actions w w' :
  byId_keyed w → run sv actions w = Some w' →
  LP.num (lifecyclePhase w) <= LP.num (lifecyclePhase w')
  ∧ (LP.num LP.Restored <= LP.num (lifecyclePhase w) →
     earlyWarnings w' = earlyWarnings w).
Proof.
  apply (V_run sv (λ w w',
    LP.num (lifecyclePhase w) <= LP.num (lifecyclePhase w')
    ∧ (LP.num LP.Restored <= LP.num (lifecyclePhase w) →
       earlyWarnings w' = earlyWarnings w))); clear;
    [done | | | warnings_untouched.. | ].
  - intros w1 w2 w3 [L12 E12] [L23 E23]. split; [lia|].
    intros Hr. rewrite E23, E12; [done|lia..].
  - intros c phase w. rewrite safeCreate_earlyWarnings.
    by destruct (safeCreate_control sv c phase w) as [_ _ _ -> _].
  - intros id w Hk.
    destruct (get_earlyWarnings id w Hk) as [[E|[E _]] ->]; [by rewrite E|].
    split; [done|]. intros Hr. rewrite E.
    assert ((LP.num (lifecyclePhase w) <? LP.num LP.Restored) = false) as ->
      by (apply Z.ltb_ge; lia).
    by rewrite app_nil_r.
Qed.

(** X10: lookups before the Restored phase.  The warnings "lazy contribution
    instantiated before LifecyclePhase.Restored" name, in order, a
    subsequence of the ids the factory was called for: each warning is
    followed by a call for that id.  The lifecycle phase never goes back,
    and once it has reached Restored no such warning is logged again. *)
Theorem early_lookup_warnings_stop_at_Restored actions w :
  run sv actions initial = Some w →
  earlyWarnings w `sublist_of` calledIds w
  ∧ ∀ later w', run sv later w = Some w' →
      LP.num (lifecyclePhase w) <= LP.num (lifecyclePhase w')
      ∧ (LP.num LP.Restored <= LP.num (lifecyclePhase w) →
         earlyWarnings w' = earlyWarnings w).
Proof.
  intros Hrun. split.
  - by apply (run_earlyWarnings_called _ _ _ byId_keyed_initial Hrun).
  - intros later w' Hlater.
    apply (run_lifecycle_forward later w w'); [|done].
    by apply (run_byId_keyed sv _ _ _ Hrun byId_keyed_initial).
Qed.
End EarlyLookups.

(* ===================================================================== *)
(** ** No registration for a phase is lost *)
(* ===================================================================== *)

Ltac attempted_untouched :=
  intros; unfold attempted, settled, keepById, keepByPhase, warnEarly in *;
  repeat case_match; world_simpl; try done; try (by eauto);
  try (match goal with
       | H : _ ∨ _ |- _ =>
           destruct H as [?|?]; [by left | right; apply elem_of_app; by left]
       end).

Section NeverLost.
Variable sv : Services.

Lemma safeCreate_attempted_mono r c phase w :
  attempted r w → attempted r (safeCreateContribution sv c phase w).
Proof.
  unfold attempted. destruct (reg_id r) as [id|].
  - apply safeCreate_settled_mono.
  - rewrite safeCreate_instantiations. intros Hr. apply elem_of_app. by left.
Qed.

Lemma run_attempted_mono r actions w w' :
  run sv actions w = Some w' → attempted r w → attempted r w'.
Proof.
  apply (U_run sv (λ w w', attempted r w → attempted r w')); clear;
    [done | | | attempted_untouched..].
  - intros w1 w2 w3 H12 H23 H1. apply H23, H12, H1.
  - intros c phase w. apply safeCreate_attempted_mono.
Qed.
Lemma doInstantiateByPhase_attempted_mono r phase w :
  attempted r w → attempted r (doInstantiateByPhase sv phase w).
Proof.
  apply (U_doInstantiateByPhase sv (λ w w', attempted r w → attempted r w')); clear;
    [done | | | attempted_untouched..].
  - intros w1 w2 w3 H12 H23 H1. apply H23, H12, H1.
  - intros c phase w. apply safeCreate_attempted_mono.
Qed.

Lemma finishBatch_attempted r phase w :
  attempted r w → attempted r (finishBatch phase w).
Proof.
  unfold attempted. destruct (reg_id r) as [id|]; [apply finishBatch_settled|].
  by destruct (finishBatch_quiet phase w) as (_ & -> & _).
Qed.

(** After the loop over an array, every registration of it is attempted. *)
Lemma instantiateAll_attempted r cs phase w :
  r ∈ cs → attempted r (instantiateAll sv cs phase w).
Proof.
  intros Hr.
  destruct (instantiateAll_attempts sv cs phase w) as (l & E & _ & Hanon & Hset).
  unfold attempted. destruct (reg_id r) as [id|] eqn:Hid; [by apply (Hset r)|].
  rewrite E. apply elem_of_app. right. by apply Hanon.
Qed.

Lemma held_control r w w' : same_control w w' → held r w → held r w'.
Proof. intros [_ Hb _ _ Hs]. unfold held. by rewrite Hb, Hs. Qed.

Lemma held_scheduled r w w' :
  contributionsByPhase w' = contributionsByPhase w →
  (∀ t, t ∈ scheduled w → t ∈ scheduled w') →
  held r w → held r w'.
Proof.
  intros Hb Hs [Hp|[(cs & phase & Ht & Hr)|(cs & i & phase & ft & Ht & Hr)]].
  - left. by rewrite Hb.
  - right; left. exists cs, phase. split; [by apply Hs|done].
  - right; right. exists cs, i, phase, ft. split; [by apply Hs|done].
Qed.

Lemma keep_held r c instantiation w :
  held r w → held r (keepById c (keepByPhase c instantiation w)).
Proof.
  destruct (keep_quiet c instantiation w) as (_ & _ & Hs & _).
  cbv zeta in Hs.
  intros [(phase & cs & Hcs & Hr)|Hsched].
  - left.
    assert (∀ w1, contributionsByPhase (keepById c w1) = contributionsByPhase w1) as ->.
    { intros w1. unfold keepById. by repeat case_match. }
    unfold keepByPhase. destruct (toPhase instantiation) as [p|]; [|by eauto].
    simpl. destruct (decide (p = phase)) as [->|Hne].
    + eexists phase, _. rewrite lookup_insert_eq. split; [done|].
      rewrite Hcs. simpl. apply elem_of_app. by left.
    + exists phase, cs. by rewrite lookup_insert_ne.
  - right. by rewrite Hs.
Qed.

Lemma doInstantiateByPhase_accounted r phase w :
  accounted r w → accounted r (doInstantiateByPhase sv phase w).
Proof.
  intros [Ha|Hh]; [left; by apply doInstantiateByPhase_attempted_mono|].
  destruct (doInstantiateByPhase_control sv phase w) as (_ & _ & _ & Hb & Hs).
  cbv zeta in Hb, Hs.
  assert (∀ t, t ∈ scheduled w → t ∈ scheduled (doInstantiateByPhase sv phase w))
    as Hmono by (intros t Ht; rewrite Hs; apply elem_of_app; by left).
  destruct Hh as [(q & cs & Hcs & Hr)|Hsched].
  - destruct (decide (q = phase)) as [->|Hne].
    + rewrite Hcs in Hs.
      destruct phase.
      * left. unfold doInstantiateByPhase. rewrite Hcs.
        assert (∀ x, attempted r x →
                  attempted r (mark (DidCreateWorkbenchContributions LP.Starting) x))
          as Hm by (intros x; unfold attempted, settled; by destruct (reg_id r)).
        by apply Hm, instantiateAll_attempted.
      * left. unfold doInstantiateByPhase. rewrite Hcs.
        assert (∀ x, attempted r x →
                  attempted r (mark (DidCreateWorkbenchContributions LP.Ready) x))
          as Hm by (intros x; unfold attempted, settled; by destruct (reg_id r)).
        by apply Hm, instantiateAll_attempted.
      * right. right; right. exists cs, 0%nat, LP.Restored, 500.
        split; [|done]. rewrite Hs. apply elem_of_app. right. apply list_elem_of_here.
      * right. right; left. exists cs, LP.Eventually.
        split; [|done]. rewrite Hs. apply elem_of_app. right. apply list_elem_of_here.
    + right. left. exists q, cs. by rewrite Hb, lookup_delete_ne.
  - right. destruct Hsched as [(cs & p & Ht & Hr)|(cs & i & p & ft & Ht & Hr)].
    + right; left. exists cs, p. split; [by apply Hmono|done].
    + right; right. exists cs, i, p, ft. split; [by apply Hmono|done].
Qed.

Lemma instantiateByPhase_accounted r phase w :
  accounted r w → accounted r (instantiateByPhase sv phase w).
Proof.
  unfold instantiateByPhase. case_match; [apply doInstantiateByPhase_accounted|].
  intros [Ha|Hh]; [by left|right].
  apply (held_scheduled r w); [done| |done].
  intros t Ht. simpl. apply elem_of_app. by left.
Qed.

(** A registration an idle callback holds is attempted by the slice or
    held by the callback it schedules. *)
Lemma instantiateSome_accounted r cs i phase forcedTimeout idle w :
  r ∈ drop i cs →
  accounted r (instantiateSome sv cs i phase forcedTimeout idle w).
Proof.
  intros Hr.
  destruct (instantiateSome_spec sv cs i phase forcedTimeout idle w)
    as (n & E & Hn & _ & _ & Hlast).
  cbv zeta in E, Hlast. rewrite E. clear E.
  assert (i < length cs)%nat as Hi.
  { destruct (decide (i < length cs)%nat); [done|].
    rewrite drop_ge in Hr by lia. by apply elem_of_nil in Hr. }
  rewrite <- (take_drop n (drop i cs)) in Hr.
  apply elem_of_app in Hr as [Hr|Hr].
  - left.
    pose proof (instantiateAll_attempted r _ phase w Hr) as Ha.
    assert (∀ x t, attempted r x → attempted r (schedule t x)) as Hsch
      by (intros x t; unfold attempted, settled; by destruct (reg_id r)).
    repeat case_match; try apply finishBatch_attempted; try apply Hsch; done.
  - right. rewrite drop_drop in Hr.
    assert (i + n < length cs)%nat as Hlt.
    { destruct (decide (i + n < length cs)%nat); [done|].
      rewrite drop_ge in Hr by lia. by apply elem_of_nil in Hr. }
    destruct (bool_decide (1 ≤ n)%nat && timeIsUp (idle (n - 1)%nat)) eqn:Hres;
      [|specialize (Hlast eq_refl); lia].
    assert ((i + n =? length cs)%nat = false) as -> by (apply Nat.eqb_neq; lia).
    right; right. exists cs, (i + n)%nat, phase, forcedTimeout.
    split; [|done]. simpl. apply elem_of_app. right. apply list_elem_of_here.
Qed.

Lemma instantiateSome_held r cs i phase forcedTimeout idle w :
  held r w → held r (instantiateSome sv cs i phase forcedTimeout idle w).
Proof.
  destruct (instantiateSome_effect sv cs i phase forcedTimeout idle w) as (Hb & Hs & _).
  cbv zeta in Hb, Hs. apply held_scheduled; [done|].
  intros t Ht. destruct Hs as [-> |(i' & ->)]; [done|].
  apply elem_of_app. by left.
Qed.
Lemma elem_of_delete_or {A} (l : list A) n t t' :
  l !! n = Some t' → t ∈ l → t = t' ∨ t ∈ delete n l.
Proof.
  intros Hn [i Hi]%list_elem_of_lookup_1.
  destruct (decide (i = n)) as [->|Hne]; [left; congruence|right].
  destruct (decide (i < n)%nat) as [Hlt|Hge].
  - apply (list_elem_of_lookup_2 _ i). by rewrite list_lookup_delete_lt.
  - apply (list_elem_of_lookup_2 _ (i - 1)).
    rewrite list_lookup_delete_ge by lia.
    by replace (S (i - 1)) with i by lia.
Qed.

Lemma step_accounted r a w w' :
  step sv a w = Some w' → accounted r w → accounted r w'.
Proof.
  intros Hstep [Ha|Hh].
  { left. apply (run_attempted_mono r [a] w w'); [|done]. simpl. by rewrite Hstep. }
  destruct a as [id ctor instantiation|ctor phase|id| |phase|n idle]; simpl in Hstep.
  - injection Hstep as <-. right. unfold registerWorkbenchContribution2.
    case_match; [case_match; [|done]|].
    + apply (held_control r w); [apply safeCreate_control | done].
    + by apply keep_held.
  - injection Hstep as <-. right.
    unfold registerWorkbenchContribution, registerWorkbenchContribution2.
    case_match; [case_match; [|done]|].
    + apply (held_control r w); [apply safeCreate_control | done].
    + by apply keep_held.
  - injection Hstep as <-. right.
    apply (held_control r w); [apply get_control | done].
  - injection Hstep as <-. unfold start. simpl.
    do 4 apply instantiateByPhase_accounted. by right.
  - revert Hstep. case_match; [|done]. intros [= <-]. by right.
  - destruct (scheduled w !! n) as [task|] eqn:Hn; [|done].
    set (w1 := set_scheduled (delete n (scheduled w)) w) in Hstep.
    (* either the registration is held without the task, or by the task *)
    assert (held r w1
            ∨ (∃ cs phase, task = AwaitRestored cs phase ∧ r ∈ cs)
            ∨ (∃ cs i phase forcedTimeout,
                 task = IdleCallback cs i phase forcedTimeout ∧ r ∈ drop i cs))
      as Hcases.
    { destruct Hh as [Hp|[(cs & phase & Ht & Hr)|(cs & i & phase & ft & Ht & Hr)]].
      - left. by left.
      - destruct (elem_of_delete_or _ _ _ _ Hn Ht) as [<-|Hin];
          [right; left; by eauto|].
        left. right; left. by exists cs, phase.
      - destruct (elem_of_delete_or _ _ _ _ Hn Ht) as [<-|Hin];
          [right; right; by eauto 6|].
        left. right; right. by exists cs, i, phase, ft. }
    destruct task as [p|cs phase|cs i phase forcedTimeout]; simpl in Hstep.
    + revert Hstep. case_match; [|done]. intros [= <-].
      apply doInstantiateByPhase_accounted. right.
      destruct Hcases as [?|[(? & ? & [=] & _)|(? & ? & ? & ? & [=] & _)]]; done.
    + revert Hstep. case_match; try done. intros [= <-]. right.
      destruct Hcases as [Hheld|[(? & ? & [= <- <-] & Hr)|(? & ? & ? & ? & [=] & _)]].
      * apply (held_scheduled r w1); [done| |done].
        intros t Ht. simpl. apply elem_of_app. by left.
      * right; right. eexists cs, 0%nat, phase, _. split; [|done].
        simpl. apply elem_of_app. right. apply list_elem_of_here.
    + injection Hstep as <-.
      destruct Hcases as [Hheld|[(? & ? & [=] & _)|(? & ? & ? & ? & [= <- <- <- <-] & Hr)]].
      * right. by apply instantiateSome_held.
      * by apply instantiateSome_accounted.
Qed.

Lemma run_accounted r actions : ∀ w w',
  run sv actions w = Some w' → accounted r w → accounted r w'.
Proof.
  induction actions as [|a actions IH]; intros w w'; simpl.
  - by intros [= <-].
  - destruct (step sv a w) as [w1|] eqn:Hstep; [|done].
    intros Hrun Hw. apply (IH _ _ Hrun). by apply (step_accounted r a w).
Qed.

(** X9: no registration for a phase is lost.  From the registration on, in
    whatever state it was made and whatever happens afterwards, the
    registration is either attempted (with an id: the id has an instance or
    a logged failure; without: the factory was called for it) or held: in
    the pending sequence of its phase, in a batch waiting for the signal,
    or in an idle callback that has not reached it.  Right after the
    registration it is attempted exactly on the direct path and held in the
    sequence of its phase otherwise. *)
Theorem phase_registration_is_attempted_or_held a r instantiation w0 w1 :
  registrationOf a = Some (r, instantiation) →
  instantiation ≠ WCI.Lazy →
  step sv a w0 = Some w1 →
  (if instantiatesDirectly instantiation w0
   then attempted r w1
   else ∃ phase cs, toPhase instantiation = Some phase
          ∧ contributionsByPhase w1 !! phase = Some (cs ++ [r]))
  ∧ ∀ later w, run sv later w1 = Some w → accounted r w.
Proof.
  intros Ha Hlazy Hstep.
  assert (w1 = registerWorkbenchContribution2 sv (reg_id r) (reg_ctor r) instantiation w0
          ∧ r = MkRegistration (reg_id r) (reg_ctor r)) as [-> Er].
  { destruct a; try done; simpl in Ha, Hstep; injection Ha as <- <-;
      by injection Hstep as <-. }
  set (w1 := registerWorkbenchContribution2 sv (reg_id r) (reg_ctor r) instantiation w0).
  assert (if instantiatesDirectly instantiation w0
          then attempted r w1
          else ∃ phase cs, toPhase instantiation = Some phase
                 ∧ contributionsByPhase w1 !! phase = Some (cs ++ [r])) as Hnow.
  { subst w1. unfold registerWorkbenchContribution2. rewrite <- Er.
    destruct (toPhase instantiation) as [phase|] eqn:Hto;
      [|by apply toPhase_None in Hto].
    destruct (instantiatesDirectly instantiation w0).
    - unfold attempted. destruct (reg_id r) as [id|] eqn:Hid.
      + by apply safeCreate_settles.
      + rewrite safeCreate_instantiations. unfold hasInstance. rewrite Hid.
        apply elem_of_app. right. apply list_elem_of_here.
    - exists phase, (default [] (contributionsByPhase w0 !! phase)).
      split; [done|].
      assert (∀ x, contributionsByPhase (keepById r x) = contributionsByPhase x) as ->.
      { intros x. unfold keepById. by repeat case_match. }
      unfold keepByPhase. rewrite Hto. simpl. by rewrite lookup_insert_eq. }
  split; [exact Hnow|].
  intros later w Hrun. apply (run_accounted r later _ _ Hrun).
  destruct (instantiatesDirectly instantiation w0); [by left|].
  destruct Hnow as (p & cs & _ & Hcs). right; left.
  exists p, (cs ++ [r]). split; [done|]. apply elem_of_app. right.
  apply list_elem_of_here.
Qed.
End NeverLost.

(* ===================================================================== *)
(** ** Phases and instantiation kinds *)
(* ===================================================================== *)

Section Kinds.
Variable sv : Services.

(** X13: [toInstantiation] undoes [toPhase]: the two are inverse bijections
    between the four phases and the four kinds other than Lazy, they keep
    the number, and Lazy, the one kind without a phase, has a number beyond
    every phase; so the comparison [phase >= instantiation] of a
    registration already fails for Lazy, and the direct path is decided by
    the services and that comparison alone. *)
Theorem toInstantiation_undoes_toPhase instantiation :
  (∀ phase, toPhase instantiation = Some phase ↔ toInstantiation phase = instantiation)
  ∧ (toPhase instantiation = None ↔ instantiation = WCI.Lazy)
  ∧ (∀ phase, toPhase instantiation = Some phase → LP.num phase = WCI.num instantiation)
  ∧ (∀ phase, LP.num phase < WCI.num WCI.Lazy)
  ∧ (∀ w, instantiatesDirectly instantiation w
          = servicesSet w && (WCI.num instantiation <=? LP.num (lifecyclePhase w))).
Proof.
  split; [intros phase; destruct instantiation, phase; split; by intros [=]|].
  split; [by destruct instantiation|].
  split; [intros phase; destruct instantiation; by intros [= <-]|].
  split; [by intros []|].
  intros w. unfold instantiatesDirectly.
  destruct instantiation; try done.
  rewrite bool_decide_eq_false_2 by (intros H; by apply H).
  destruct (servicesSet w); [|done]. by destruct (lifecyclePhase w).
Qed.
End Kinds.

(* ===================================================================== *)
(** ** Further concrete runs *)
(* ===================================================================== *)


(** A Lazy contribution whose constructor throws, looked up after [start]:
    the failure is in the log. *)
Lemma construction_failures_are_logged_run :
  ∃ w,
    run failing [Register2 (Some "a") ctorBad WCI.Lazy; Start; Get "a"] initial = Some w
    ∧ ∀ n r, instantiations w !! n = Some r →
             createThrows failing (reg_ctor r) n = true →
             ErrorUnableToCreate (displayName r) ∈ logged w.
Proof.
  eexists. split; [vm_compute; reflexivity|].
  refine (proj1 (construction_failures_are_exactly_the_logged_errors failing
                   [Register2 (Some "a") ctorBad WCI.Lazy; Start; Get "a"] _ _)).
  vm_compute; reflexivity.
Defined.

(** A contribution that takes 150 to create, constructed in the Starting
    phase: every warning in the log is about a call that took more than
    20. *)
Lemma slow_creations_are_warned_run :
  ∃ w,
    run sluggish [Register2 (Some "a") ctorA WCI.BlockStartup; Start] initial = Some w
    ∧ ∀ name time, WarnCreationTook name time ∈ logged w →
        BLOCK_BEFORE_RESTORE_WARN_THRESHOLD < time
        ∧ ∃ n r, instantiations w !! n = Some r ∧ displayName r = name
                 ∧ creationTime sluggish (reg_ctor r) n = time
                 ∧ (isBuilt sluggish = true → is_Some (reg_id r)).
Proof.
  eexists. split; [vm_compute; reflexivity|].
  refine (proj1 (slow_creations_are_warned_above_threshold sluggish
                   [Register2 (Some "a") ctorA WCI.BlockStartup; Start] _ _)).
  vm_compute; reflexivity.
Defined.


(** The Starting phase with a constructor that throws first: the sequence
    leaves the index. *)
Lemma inline_phase_attempts_every_registration_run :
  contributionsByPhase
    (doInstantiateByPhase failing LP.Starting
       (registerWorkbenchContribution2 failing (Some "a") ctorA WCI.BlockStartup
          (registerWorkbenchContribution2 failing (Some "bad") ctorBad
             WCI.BlockStartup initial))) !! LP.Starting = None.
Proof.
  refine (proj1 (inline_phase_attempts_every_registration_in_order failing LP.Starting
                   [MkRegistration (Some "bad") ctorBad; MkRegistration (Some "a") ctorA]
                   _ _ _)).
  - vm_compute; reflexivity.
  - vm_compute; reflexivity.
Defined.

(** Registrations and a phase change before [start]: no factory call. *)
Lemma before_start_registrations_are_only_stored_run :
  ∃ w,
    run reliable [Register2 (Some "a") ctorA WCI.BlockStartup; Advance LP.Ready;
                  Register ctorB LP.Ready; Get "a"] initial = Some w
    ∧ instantiations w = [].
Proof.
  eexists. split; [vm_compute; reflexivity|].
  refine (proj1 (before_start_registrations_are_only_stored reliable
                   [Register2 (Some "a") ctorA WCI.BlockStartup; Advance LP.Ready;
                    Register ctorB LP.Ready; Get "a"] _ _ _)).
  - vm_compute; reflexivity.
  - vm_compute; reflexivity.
Defined.

(** A registration for Restored in a registry started in the Starting
    phase: the continuation of Restored is scheduled. *)
Lemma pending_sequences_have_a_continuation_run :
  ∃ w,
    run reliable [Register2 (Some "a") ctorA WCI.AfterRestored; Start] initial = Some w
    ∧ ∃ n, scheduled w !! n = Some (WhenPhase LP.Restored)
        ∧ (LP.num LP.Restored <= LP.num (lifecyclePhase w) →
           ∀ idle, ∃ w', step reliable (Run n idle) w = Some w'
                         ∧ contributionsByPhase w' !! LP.Restored = None
                         ∧ continuationsScheduled w').
Proof.
  eexists. split; [vm_compute; reflexivity|].
  refine (pending_sequences_have_a_continuation reliable
            [Register2 (Some "a") ctorA WCI.AfterRestored; Start] _ _ _ LP.Restored _).
  - vm_compute; reflexivity.
  - vm_compute; reflexivity.
  - left. vm_compute; reflexivity.
Defined.

(** The registration of the timeline after one other registration, with the
    lifecycle at Ready: nothing is constructed by the registration. *)
Lemma localHistoryTimeline_run :
  ∃ w0,
    run reliable [Register2 (Some "a") ctorA WCI.BlockStartup; Advance LP.Ready]
      initial = Some w0
    ∧ instantiations (registerLocalHistoryTimeline reliable "timeline" w0) = []
    ∧ contributionsByPhase (registerLocalHistoryTimeline reliable "timeline" w0)
        !! LP.Ready
      = Some (registeredFor LP.Ready
                [Register2 (Some "a") ctorA WCI.BlockStartup; Advance LP.Ready]
              ++ [MkRegistration (Some "timeline") LocalHistoryTimeline]).
Proof.
  eexists. split; [vm_compute; reflexivity|].
  refine (proj1 (localHistoryTimeline_is_created_with_the_Ready_phase reliable
                   "timeline"
                   [Register2 (Some "a") ctorA WCI.BlockStartup; Advance LP.Ready]
                   _ _ _ _)).
  - vm_compute; reflexivity.
  - vm_compute; reflexivity.
  - intros [] r Hr; vm_compute in Hr.
    + apply list_elem_of_singleton in Hr as ->. discriminate.
    + by apply elem_of_nil in Hr.
    + by apply elem_of_nil in Hr.
    + by apply elem_of_nil in Hr.
Defined.

(** A Lazy contribution looked up in the Starting phase: one warning, one
    call. *)
Lemma early_lookup_warnings_run :
  ∃ w,
    run reliable [Register2 (Some "a") ctorA WCI.Lazy; Start; Get "a"] initial = Some w
    ∧ earlyWarnings w `sublist_of` calledIds w.
Proof.
  eexists. split; [vm_compute; reflexivity|].
  refine (proj1 (early_lookup_warnings_stop_at_Restored reliable
                   [Register2 (Some "a") ctorA WCI.Lazy; Start; Get "a"] _ _)).
  vm_compute; reflexivity.
Defined.

(** A registration for Eventually in the initial registry: it stays
    accounted for, whatever follows. *)
Lemma phase_registration_is_attempted_or_held_run :
  ∃ w1,
    step reliable (Register2 (Some "a") ctorA WCI.Eventually) initial = Some w1
    ∧ ∀ later w, run reliable later w1 = Some w →
        accounted (MkRegistration (Some "a") ctorA) w.
Proof.
  eexists. split; [vm_compute; reflexivity|].
  refine (proj2 (phase_registration_is_attempted_or_held reliable
                   (Register2 (Some "a") ctorA WCI.Eventually)
                   (MkRegistration (Some "a") ctorA) WCI.Eventually initial _ _ _ _)).
  - reflexivity.
  - discriminate.
  - vm_compute; reflexivity.
Defined.

(** A Restored batch of one registration, given to the idle runner of a
    started registry with no idle time at all: the signal resolves. *)
Lemma restored_batch_resolves_whenRestored_run :
  ∃ w,
    run reliable [Start] initial = Some w
    ∧ ∃ k w', (k ≤ length [MkRegistration (Some "a") ctorA] + 1)%nat
        ∧ run reliable (slices (length (scheduled w)) (λ _, busy) 0 k)
            (doInstantiateWhenIdle [MkRegistration (Some "a") ctorA] LP.Restored w)
          = Some w'
        ∧ pendingRestoredContributions w' = Resolved.
Proof.
  eexists. split; [vm_compute; reflexivity|].
  refine (restored_batch_resolves_whenRestored reliable [Start]
            [MkRegistration (Some "a") ctorA] (λ _, busy) _ _).
  vm_compute; reflexivity.
Defined.
